(** * honggfuzz, POSIX / signal backend (posix/arch.c)

    A shallow embedding of [arch_analyzeSignal], [arch_launchChild] and
    [arch_reapChild], and the properties of crash triage, artifact naming,
    placeholder substitution and the wait loop proved on it. *)

From Stdlib Require Import ZArith List String Ascii Bool Lia.
From Stdlib Require Import Decimal DecimalString.
From Stdlib Require Import Floats.SpecFloat.
From Stdlib Require DecimalZ DecimalPos.
Import ListNotations.

Local Open Scope string_scope.
Local Open Scope Z_scope.

(** ** The platform: <limits.h>, <signal.h> and <sys/wait.h>

    These are not code of the repository.  The values are those of
    Linux/glibc on x86-64, where <sys/wait.h> has [WIFCONTINUED] (the
    replacement that arch.c defines for an Android libc without it is not
    compiled there). *)

Module Platform.

Definition PATH_MAX : nat := 4096.

(** Signal numbers, and the size of a table indexed by them. *)
Definition NSIG : Z := 65.
Definition SIGILL : Z := 4.
Definition SIGABRT : Z := 6.
Definition SIGBUS : Z := 7.
Definition SIGFPE : Z := 8.
Definition SIGSEGV : Z := 11.
Definition SIGTERM : Z := 15.

(** The conversion of an [int] to [signed char]. *)
Definition to_schar (z : Z) : Z := (z + 128) mod 256 - 128.

(** bits/waitstatus.h *)
Definition WTERMSIG (status : Z) : Z := Z.land status 0x7f.
Definition WEXITSTATUS (status : Z) : Z := Z.shiftr (Z.land status 0xff00) 8.
Definition WIFEXITED (status : Z) : bool := WTERMSIG status =? 0.
Definition WIFSIGNALED (status : Z) : bool :=
  0 <? Z.shiftr (to_schar (Z.land status 0x7f + 1)) 1.
Definition W_CONTINUED : Z := 0xffff.
Definition WIFCONTINUED (status : Z) : bool := status =? W_CONTINUED.

(** [unsigned long] arithmetic (LP64): the type of the operand [1UL] of
    the atomic increments. *)
Definition ULONG_MAX : Z := 2 ^ 64 - 1.
Definition ulong (z : Z) : Z := z mod 2 ^ 64.

End Platform.
Import Platform.

(** ** C strings and printf *)

(** The first [n] bytes of a string. *)
Fixpoint str_take (n : nat) (s : string) : string :=
  match n, s with
  | S n', String c s' => String c (str_take n' s')
  | _, _ => EmptyString
  end.

(** A string without its first [n] bytes. *)
Fixpoint str_drop (n : nat) (s : string) : string :=
  match n, s with
  | S n', String _ s' => str_drop n' s'
  | _, _ => s
  end.

(** [snprintf(buf, size, fmt, ...)], given the text [s] that [fmt] and
    its arguments expand to: at most [size - 1] bytes are stored (and a
    terminating NUL). *)
Definition snprintf (size : nat) (s : string) : string :=
  str_take (size - 1) s.

(** The conversion [%d]. *)
Definition fmt_d (z : Z) : string := NilZero.string_of_int (Z.to_int z).

(** [strcmp(a, b) == 0] *)
Definition streq (a b : string) : bool := String.eqb a b.

(** [strstr(hay, needle)]: the offset of the first occurrence of
    [needle] in [hay], [None] for a NULL result. *)
Fixpoint strstr (hay needle : string) : option nat :=
  if String.prefix needle hay then Some 0%nat
  else match hay with
       | EmptyString => None
       | String _ hay' => option_map S (strstr hay' needle)
       end.

(** ** The signal table [arch_sigs] *)

Record sig_entry := { important : bool; descr : string }.

(** Assignment to one element of an array. *)
Fixpoint upd {A : Type} (i : nat) (f : A -> A) (l : list A) : list A :=
  match l, i with
  | [], _ => []
  | x :: l', O => f x :: l'
  | x :: l', S i' => x :: upd i' f l'
  end.

Definition set_important (sig : Z) (b : bool) :=
  upd (Z.to_nat sig) (fun e => {| important := b; descr := descr e |}).
Definition set_descr (sig : Z) (d : string) :=
  upd (Z.to_nat sig) (fun e => {| important := important e; descr := d |}).

(** The designated initializers of the table, in the order of the
    source: every element first, then the five signals. *)
Definition arch_sigs : list sig_entry :=
  let t := repeat {| important := false; descr := "UNKNOWN" |} (Z.to_nat NSIG) in
  let t := set_descr SIGILL "SIGILL" (set_important SIGILL true t) in
  let t := set_descr SIGFPE "SIGFPE" (set_important SIGFPE true t) in
  let t := set_descr SIGSEGV "SIGSEGV" (set_important SIGSEGV true t) in
  let t := set_descr SIGBUS "SIGBUS" (set_important SIGBUS true t) in
  set_descr SIGABRT "SIGABRT" (set_important SIGABRT true t).

(** [arch_sigs[termsig]].  The table has [NSIG] elements: an index
    outside of it is an out-of-bounds read, whose result C does not
    define ([None]). *)
Definition arch_sigs_at (termsig : Z) : option sig_entry :=
  if termsig <? 0 then None else nth_error arch_sigs (Z.to_nat termsig).

(** ** The engine context and the run state (common.h)

    Only the fields that posix/arch.c reads or writes.  [cmdline] is the
    NULL-terminated array of template arguments; the mutation rate is an
    IEEE 754 value; the two counters are unsigned 64-bit integers. *)

Record honggfuzz_t := {
  cmdline : list string;
  fuzzStdin : bool;
  origFlipRate : spec_float;
  useVerifier : bool;
  workDir : string;
  fileExtn : string;
  crashesCnt : Z;
  uniqueCrashesCnt : Z
}.

Record fuzzer_t := {
  pid : Z;
  fileName : string;
  origFileName : string
}.

Definition with_crashesCnt (h : honggfuzz_t) (v : Z) : honggfuzz_t :=
  {| cmdline := cmdline h; fuzzStdin := fuzzStdin h;
     origFlipRate := origFlipRate h; useVerifier := useVerifier h;
     workDir := workDir h; fileExtn := fileExtn h;
     crashesCnt := v; uniqueCrashesCnt := uniqueCrashesCnt h |}.

Definition with_uniqueCrashesCnt (h : honggfuzz_t) (v : Z) : honggfuzz_t :=
  {| cmdline := cmdline h; fuzzStdin := fuzzStdin h;
     origFlipRate := origFlipRate h; useVerifier := useVerifier h;
     workDir := workDir h; fileExtn := fileExtn h;
     crashesCnt := crashesCnt h; uniqueCrashesCnt := v |}.

(** ** Effects

    What the backend does to the outside is recorded, in program order,
    in a trace.  The text of a log line is kept as its message and
    arguments. *)

Inductive log_level := LOG_D | LOG_I | LOG_E.

Inductive log_msg :=
| Msg_exited (pid exitstatus : Z)
| Msg_report_bug (pid status : Z)
| Msg_killed (pid termsig : Z)
| Msg_not_important
| Msg_saving (fileName newname : string)
| Msg_couldnt_save (fileName newname : string)
| Msg_came_back (pid status : Z).

Inductive counter := CrashesCnt | UniqueCrashesCnt.

Inductive event :=
| Ev_sancov_Analyze (pid : Z)
| Ev_log (lvl : log_level) (msg : log_msg)
| Ev_fetch_and_add (c : counter)
| Ev_copyFile (src dst : string) (ok : bool).

(** What the collaborators answer: [util_getLocalTime] (util.c) for a
    format at the time of the call, and [files_copyFile] (files.c) for a
    source and a destination. *)
Record env := {
  env_getLocalTime : string -> string;
  env_copyFile : string -> string -> bool
}.

Record world := { w_hfuzz : honggfuzz_t; w_trace : list event }.

(** A computation on the world; [None] when C leaves the behaviour
    undefined. *)
Definition M (A : Type) : Type := world -> option (A * world).

Definition ret {A : Type} (a : A) : M A := fun w => Some (a, w).

Definition bind {A B : Type} (m : M A) (k : A -> M B) : M B :=
  fun w => match m w with
           | Some (a, w') => k a w'
           | None => None
           end.

Notation "x <- c1 ;; c2" := (bind c1 (fun x => c2))
  (at level 61, c1 at next level, right associativity).
Notation "c1 ;; c2" := (bind c1 (fun _ => c2))
  (at level 61, right associativity).

Definition emit (ev : event) : M unit :=
  fun w => Some (tt, {| w_hfuzz := w_hfuzz w; w_trace := w_trace w ++ [ev] |}).

Definition get_hfuzz : M honggfuzz_t := fun w => Some (w_hfuzz w, w).

Definition put_hfuzz (h : honggfuzz_t) : M unit :=
  fun w => Some (tt, {| w_hfuzz := h; w_trace := w_trace w |}).

Definition of_option {A : Type} (o : option A) : M A :=
  fun w => match o with Some a => Some (a, w) | None => None end.

(** [LOG_D], [LOG_I] and [LOG_E] (log.h) write a line and return. *)
Definition LOG (lvl : log_level) (msg : log_msg) : M unit := emit (Ev_log lvl msg).

(** [sancov_Analyze(hfuzz, fuzzer)] (sancov.c): it works on the coverage
    fields, none of which this file reads. *)
Definition sancov_Analyze (fuzzer : fuzzer_t) : M unit :=
  emit (Ev_sancov_Analyze (pid fuzzer)).

(** [__sync_fetch_and_add(&hfuzz->crashesCnt, 1UL)] and the same on
    [uniqueCrashesCnt]. *)
Definition sync_fetch_and_add (c : counter) : M unit :=
  h <- get_hfuzz ;;
  put_hfuzz match c with
            | CrashesCnt => with_crashesCnt h (ulong (crashesCnt h + 1))
            | UniqueCrashesCnt =>
                with_uniqueCrashesCnt h (ulong (uniqueCrashesCnt h + 1))
            end ;;
  emit (Ev_fetch_and_add c).

Definition files_copyFile (e : env) (src dst : string) : M bool :=
  let ok := env_copyFile e src dst in
  emit (Ev_copyFile src dst ok) ;; ret ok.

(** ** [arch_analyzeSignal] *)

(** [hfuzz->origFlipRate == 0.0L && hfuzz->useVerifier] *)
Definition dry_run (h : honggfuzz_t) : bool :=
  SFeqb (origFlipRate h) (S754_zero false) && useVerifier h.

(** The text of the format ["%s/%s.%d.%s.%s.%s"]. *)
Definition crash_path (h : honggfuzz_t) (d : string) (fuzzer : fuzzer_t)
    (localtmstr : string) : string :=
  workDir h ++ "/" ++ d ++ "." ++ fmt_d (pid fuzzer) ++ "." ++ localtmstr
    ++ "." ++ origFileName fuzzer ++ "." ++ fileExtn h.

(** What the two calls of [snprintf] leave in [newname], a buffer of
    [PATH_MAX] bytes. *)
Definition crash_newname (h : honggfuzz_t) (sig : sig_entry) (fuzzer : fuzzer_t)
    (localtmstr : string) : string :=
  if dry_run h then snprintf PATH_MAX (origFileName fuzzer)
  else snprintf PATH_MAX (crash_path h (descr sig) fuzzer localtmstr).

Definition arch_analyzeSignal (e : env) (status : Z) (fuzzer : fuzzer_t) : M bool :=
  if WIFCONTINUED status then ret false
  else
    (if WIFEXITED status || WIFSIGNALED status then sancov_Analyze fuzzer
     else ret tt) ;;
    if WIFEXITED status then
      LOG LOG_D (Msg_exited (pid fuzzer) (WEXITSTATUS status)) ;;
      ret true
    else if negb (WIFSIGNALED status) then
      LOG LOG_E (Msg_report_bug (pid fuzzer) status) ;;
      ret true
    else
      let termsig := WTERMSIG status in
      LOG LOG_D (Msg_killed (pid fuzzer) termsig) ;;
      sig <- of_option (arch_sigs_at termsig) ;;
      if negb (important sig) then
        LOG LOG_D Msg_not_important ;;
        ret true
      else
        let localtmstr := env_getLocalTime e "%F.%H:%M:%S" in
        h <- get_hfuzz ;;
        let newname := crash_newname h sig fuzzer localtmstr in
        LOG LOG_I (Msg_saving (fileName fuzzer) newname) ;;
        sync_fetch_and_add CrashesCnt ;;
        sync_fetch_and_add UniqueCrashesCnt ;;
        ok <- files_copyFile e (fileName fuzzer) newname ;;
        (if negb ok then LOG LOG_E (Msg_couldnt_save (fileName fuzzer) newname)
         else ret tt) ;;
        ret true.

(** ** [arch_reapChild]

    The loop blocks in [wait4].  What the successive calls of [wait4]
    return (the value returned, and the status stored) is given as a
    list; when the list is used up the loop is still waiting. *)

Inductive reap_result :=
| Reaped (w : world) (rest : list (Z * Z))
| Waiting (w : world)
| Undefined.

Fixpoint arch_reapChild (e : env) (wait4 : list (Z * Z)) (fuzzer : fuzzer_t)
    (w : world) : reap_result :=
  match wait4 with
  | [] => Waiting w
  | (r, status) :: wait4' =>
      if r =? pid fuzzer then
        match (LOG LOG_D (Msg_came_back (pid fuzzer) status) ;;
               arch_analyzeSignal e status fuzzer) w with
        | None => Undefined
        | Some (true, w') => Reaped w' wait4'
        | Some (false, w') => arch_reapChild e wait4' fuzzer w'
        end
      else arch_reapChild e wait4' fuzzer w
  end.

(** ** [arch_launchChild]

    [args] holds pointers: to the input path, to the one buffer
    [argData], or to an argument of the template.  [execvp] reads the
    strings through them after the loop. *)

Definition ARGS_MAX : nat := 512.

Inductive argp := P_fileName | P_argData | P_cmdline (x : nat).

Record frame := { args : list argp; argData : string }.

Section Launch.

(** The token that stands for the input file, a constant of common.h. *)
Variable _HF_FILE_PLACEHOLDER : string.

Variable hfuzz : honggfuzz_t.
Variable fileName : string.

(** The text of ["%.*s%s"] for the precision [off], an argument and
    the input path.  The precision is [(int)(off - cmdline[x])], the
    offset itself for an argument of less than 2^31 bytes, as every
    argument of a command line is. *)
Definition splice (off : nat) (a : string) : string :=
  str_take off a ++ fileName.

(** The body of the loop for [hfuzz->cmdline[x] = a]; [args[x]] is the
    next element of [args]. *)
Definition launch_body (x : nat) (a : string) (fr : frame) : frame :=
  if negb (fuzzStdin hfuzz) && streq a _HF_FILE_PLACEHOLDER then
    {| args := args fr ++ [P_fileName]; argData := argData fr |}
  else
    match (if negb (fuzzStdin hfuzz) then strstr a _HF_FILE_PLACEHOLDER else None) with
    | Some off =>
        {| args := args fr ++ [P_argData];
           argData := snprintf PATH_MAX (splice off a) |}
    | None =>
        {| args := args fr ++ [P_cmdline x]; argData := argData fr |}
    end.

(** [for (x = 0; x < ARGS_MAX && hfuzz->cmdline[x]; x++)] from [x] on,
    [rest] being the arguments from [cmdline[x]] to the NULL. *)
Fixpoint launch_loop (x : nat) (rest : list string) (fr : frame) : frame :=
  match rest with
  | [] => fr
  | a :: rest' =>
      if (x <? ARGS_MAX)%nat then launch_loop (S x) rest' (launch_body x a fr)
      else fr
  end.

Definition deref (fr : frame) (p : argp) : string :=
  match p with
  | P_fileName => fileName
  | P_argData => argData fr
  | P_cmdline x => nth x (cmdline hfuzz) ""
  end.

(** The argument vector that [execvp] receives, up to its NULL. *)
Definition launch_argv : list string :=
  let fr := launch_loop 0 (cmdline hfuzz) {| args := []; argData := "" |} in
  map (deref fr) (args fr).

(** [arch_launchChild]: [execvp(args[0], args)] does not return when
    it succeeds ([None]); the function returns [false] when it fails. *)
Definition arch_launchChild (execvp : option string -> list string -> bool)
    : option bool :=
  if execvp (hd_error launch_argv) launch_argv then None else Some false.

End Launch.

(** ** The local-time formatter *)

(** A broken-down local time: the calendar year, the month from 1, the
    day of the month, and the time of the day. *)
Record tm := {
  tm_year : nat; tm_mon : nat; tm_mday : nat;
  tm_hour : nat; tm_min : nat; tm_sec : nat
}.

Definition digit (n : nat) : ascii := ascii_of_nat (48 + n mod 10).

Definition two_digits (n : nat) : string :=
  String (digit (n / 10)) (String (digit n) EmptyString).

Definition four_digits (n : nat) : string :=
  two_digits (n / 100) ++ two_digits n.

Arguments two_digits : simpl never.
Arguments four_digits : simpl never.

(** The conversions [%F] (that is [%Y-%m-%d]), [%H], [%M] and [%S]. *)
Definition conversion (t : tm) (c : ascii) : string :=
  if Ascii.eqb c "F" then
    four_digits (tm_year t) ++ "-" ++ two_digits (tm_mon t) ++ "-"
      ++ two_digits (tm_mday t)
  else if Ascii.eqb c "H" then two_digits (tm_hour t)
  else if Ascii.eqb c "M" then two_digits (tm_min t)
  else if Ascii.eqb c "S" then two_digits (tm_sec t)
  else String "%" (String c EmptyString).

(** Modelled from the spec: [util_getLocalTime] of util.c, which is not
    among the sources; the spec has it produce a fixed-width timestamp
    [YYYY-MM-DD.HH:MM:SS] from the wall-clock time.  Here it expands the
    conversions of the format for a broken-down local time. *)
Fixpoint util_getLocalTime (t : tm) (fmt : string) : string :=
  match fmt with
  | EmptyString => EmptyString
  | String c fmt' =>
      match fmt' with
      | String c' fmt'' =>
          if Ascii.eqb c "%" then conversion t c' ++ util_getLocalTime t fmt''
          else String c (util_getLocalTime t fmt')
      | EmptyString => String c EmptyString
      end
  end.

(** ** Signals, effects and outcomes, as the properties name them *)

(** The crash-worthy set. *)
Definition is_crash_worthy (sig : Z) : bool :=
  (sig =? SIGILL) || (sig =? SIGFPE) || (sig =? SIGSEGV) || (sig =? SIGBUS)
  || (sig =? SIGABRT).

Definition crash_worthy (sig : Z) : Prop :=
  sig = SIGILL \/ sig = SIGFPE \/ sig = SIGSEGV \/ sig = SIGBUS \/ sig = SIGABRT.

(** The display name of a signal. *)
Definition signal_name (sig : Z) : string :=
  if sig =? SIGILL then "SIGILL"
  else if sig =? SIGFPE then "SIGFPE"
  else if sig =? SIGSEGV then "SIGSEGV"
  else if sig =? SIGBUS then "SIGBUS"
  else if sig =? SIGABRT then "SIGABRT"
  else "UNKNOWN".

Definition log_to (w : world) (evs : list event) : world :=
  {| w_hfuzz := w_hfuzz w; w_trace := w_trace w ++ evs |}.

(** Both counters after the two atomic increments. *)
Definition counted (h : honggfuzz_t) : honggfuzz_t :=
  with_uniqueCrashesCnt (with_crashesCnt h (ulong (crashesCnt h + 1)))
    (ulong (uniqueCrashesCnt h + 1)).

(** The destination of the artifact of a crash. *)
Definition destination (e : env) (h : honggfuzz_t) (sig : sig_entry)
    (fuzzer : fuzzer_t) : string :=
  crash_newname h sig fuzzer (env_getLocalTime e "%F.%H:%M:%S").

(** The effects of the crash branch, in order. *)
Definition crash_events (e : env) (h : honggfuzz_t) (termsig : Z)
    (sig : sig_entry) (fuzzer : fuzzer_t) : list event :=
  let newname := destination e h sig fuzzer in
  let ok := env_copyFile e (fileName fuzzer) newname in
  [ Ev_sancov_Analyze (pid fuzzer);
    Ev_log LOG_D (Msg_killed (pid fuzzer) termsig);
    Ev_log LOG_I (Msg_saving (fileName fuzzer) newname);
    Ev_fetch_and_add CrashesCnt;
    Ev_fetch_and_add UniqueCrashesCnt;
    Ev_copyFile (fileName fuzzer) newname ok ]
  ++ (if ok then []
      else [Ev_log LOG_E (Msg_couldnt_save (fileName fuzzer) newname)]).

(** Persisting a crash: an atomic increment or a copy of the input. *)
Definition crash_effect (ev : event) : bool :=
  match ev with
  | Ev_fetch_and_add _ | Ev_copyFile _ _ _ => true
  | _ => false
  end.

Definition is_sancov (ev : event) : bool :=
  match ev with Ev_sancov_Analyze _ => true | _ => false end.

(** The copies among some effects: source and destination. *)
Fixpoint copies (tr : list event) : list (string * string) :=
  match tr with
  | [] => []
  | Ev_copyFile src dst _ :: tr' => (src, dst) :: copies tr'
  | _ :: tr' => copies tr'
  end.

(** ** Every call of [arch_analyzeSignal] takes one of six branches *)

Inductive analyzed (e : env) (status : Z) (fuzzer : fuzzer_t) (w : world)
  : option (bool * world) -> Prop :=
| A_continued :
    WIFCONTINUED status = true ->
    analyzed e status fuzzer w (Some (false, w))
| A_exited :
    WIFEXITED status = true ->
    analyzed e status fuzzer w
      (Some (true, log_to w [ Ev_sancov_Analyze (pid fuzzer);
                              Ev_log LOG_D (Msg_exited (pid fuzzer) (WEXITSTATUS status)) ]))
| A_unexpected :
    WIFCONTINUED status = false -> WIFEXITED status = false ->
    WIFSIGNALED status = false ->
    analyzed e status fuzzer w
      (Some (true, log_to w [ Ev_log LOG_E (Msg_report_bug (pid fuzzer) status) ]))
| A_out_of_table :
    WIFSIGNALED status = true -> arch_sigs_at (WTERMSIG status) = None ->
    analyzed e status fuzzer w None
| A_boring (sig : sig_entry) :
    WIFSIGNALED status = true -> arch_sigs_at (WTERMSIG status) = Some sig ->
    important sig = false ->
    analyzed e status fuzzer w
      (Some (true, log_to w [ Ev_sancov_Analyze (pid fuzzer);
                              Ev_log LOG_D (Msg_killed (pid fuzzer) (WTERMSIG status));
                              Ev_log LOG_D Msg_not_important ]))
| A_crash (sig : sig_entry) :
    WIFSIGNALED status = true -> arch_sigs_at (WTERMSIG status) = Some sig ->
    important sig = true ->
    analyzed e status fuzzer w
      (Some (true, {| w_hfuzz := counted (w_hfuzz w);
                      w_trace := w_trace w ++
                        crash_events e (w_hfuzz w) (WTERMSIG status) sig fuzzer |})).

(** ** The branches of the loop of [arch_launchChild] *)

Section LaunchKinds.

Variables (ph : string) (h : honggfuzz_t) (input : string).

(** What the loop does with an argument: the three branches. *)
Inductive arg_kind := Exact | Sub (off : nat) | Plain.

Definition kind (a : string) : arg_kind :=
  if negb (fuzzStdin h) && streq a ph then Exact
  else match (if negb (fuzzStdin h) then strstr a ph else None) with
       | Some off => Sub off
       | None => Plain
       end.

Definition is_sub (a : string) : bool :=
  match kind a with Sub _ => true | _ => false end.

Definition ptr_of (x : nat) (a : string) : argp :=
  match kind a with
  | Exact => P_fileName
  | Sub _ => P_argData
  | Plain => P_cmdline x
  end.

Definition data_of (d a : string) : string :=
  match kind a with
  | Sub off => snprintf PATH_MAX (splice input off a)
  | _ => d
  end.

Fixpoint ptrs (x : nat) (l : list string) : list argp :=
  match l with
  | [] => []
  | a :: l' => ptr_of x a :: ptrs (S x) l'
  end.

(** The arguments that the loop visits. *)
Definition visited : list string := firstn ARGS_MAX (cmdline h).

(** What [argData] holds after the loop. *)
Definition final_argData : string := fold_left data_of visited "".

End LaunchKinds.

(** ** Sample data: the scenario of a SIGSEGV of pid 4242 on "seed1" *)

(** Modelled from the spec: the value of [_HF_FILE_PLACEHOLDER], a
    constant of common.h, which is not among the sources; the spec's
    scenario writes the token as two at signs. *)
Definition spec_token : string := "@@".

(** The mutation rate 0.05 as a binary64 value. *)
Definition rate_0_05 : spec_float := S754_finite false 3602879701896397 (-56).

Definition ex_hfuzz : honggfuzz_t :=
  {| cmdline := ["target"; "--in=@@"; "rest"]; fuzzStdin := false;
     origFlipRate := rate_0_05; useVerifier := false;
     workDir := "/out"; fileExtn := "fuzz";
     crashesCnt := 0; uniqueCrashesCnt := 0 |}.

Definition ex_fuzzer : fuzzer_t :=
  {| pid := 4242; fileName := "/tmp/f1"; origFileName := "seed1" |}.

Definition ex_tm : tm :=
  {| tm_year := 2024; tm_mon := 1; tm_mday := 2;
     tm_hour := 10; tm_min := 0; tm_sec := 0 |}.

(** Collaborators whose clock reads 2024-01-02 10:00:00 and whose copies
    fail. *)
Definition ex_env : env :=
  {| env_getLocalTime := util_getLocalTime ex_tm;
     env_copyFile := fun _ _ => false |}.

Definition ex_world : world := {| w_hfuzz := ex_hfuzz; w_trace := [] |}.

(** The world after the SIGSEGV of the sample scenario. *)
Definition ex_world_after : world :=
  {| w_hfuzz := counted ex_hfuzz;
     w_trace := crash_events ex_env ex_hfuzz 11
                  {| important := true; descr := "SIGSEGV" |} ex_fuzzer |}.

(** A name of [PATH_MAX] bytes. *)
Definition long_name : string := string_of_list_ascii (repeat "a"%char PATH_MAX).

(** The engine context of a replay: no mutation, verifier on. *)
Definition replay_hfuzz : honggfuzz_t :=
  {| cmdline := ["target"; "--in=@@"; "rest"]; fuzzStdin := false;
     origFlipRate := S754_zero false; useVerifier := true;
     workDir := "/out"; fileExtn := "fuzz";
     crashesCnt := 0; uniqueCrashesCnt := 0 |}.

(** A directory of 4090 bytes, shorter than [PATH_MAX]. *)
Definition long_dir : string := str_take 4090 long_name.

Definition long_dir_hfuzz : honggfuzz_t :=
  {| cmdline := ["target"; "--in=@@"; "rest"]; fuzzStdin := false;
     origFlipRate := rate_0_05; useVerifier := false;
     workDir := long_dir; fileExtn := "fuzz";
     crashesCnt := 0; uniqueCrashesCnt := 0 |}.

Definition ex_hfuzz_stdin : honggfuzz_t :=
  {| cmdline := ["target"; "--in=@@"; "rest"]; fuzzStdin := true;
     origFlipRate := rate_0_05; useVerifier := false;
     workDir := "/out"; fileExtn := "fuzz";
     crashesCnt := 0; uniqueCrashesCnt := 0 |}.

(** A template with the token inside two of its arguments. *)
Definition two_sub_hfuzz : honggfuzz_t :=
  {| cmdline := ["target"; "a=@@"; "b=@@"]; fuzzStdin := false;
     origFlipRate := rate_0_05; useVerifier := false;
     workDir := "/out"; fileExtn := "fuzz";
     crashesCnt := 0; uniqueCrashesCnt := 0 |}.

(** ** The rest of the backend, and what its properties name *)

(** [arch_archInit]: nothing to set up, it reports success. *)
Definition arch_archInit (hfuzz : honggfuzz_t) : bool := true.

(** [arch_fork]: the value of [fork()], which the system gives. *)
Definition arch_fork (fork : Z) (hfuzz : honggfuzz_t) : Z := fork.

(** A result of [wait4] on which the loop of [arch_reapChild] goes on:
    one for another process or a failed call, or a status of the child
    that [WIFCONTINUED] accepts. *)
Definition transient (fuzzer : fuzzer_t) (r : Z * Z) : bool :=
  negb (fst r =? pid fuzzer) || WIFCONTINUED (snd r).

(** The debug lines of [arch_reapChild] for some results of [wait4]: one
    for each that is for the child. *)
Fixpoint came_back (fuzzer : fuzzer_t) (wait4 : list (Z * Z)) : list event :=
  match wait4 with
  | [] => []
  | (r, status) :: wait4' =>
      if r =? pid fuzzer
      then Ev_log LOG_D (Msg_came_back (pid fuzzer) status) :: came_back fuzzer wait4'
      else came_back fuzzer wait4'
  end.

(** A text without a full stop. *)
Fixpoint dotless (s : string) : bool :=
  match s with
  | EmptyString => true
  | String c s' => negb (Ascii.eqb c ".") && dotless s'
  end.

(** The substitution of one argument taken alone, when the input is not
    given on the standard input: what the three branches of the loop of
    [arch_launchChild] compute for it. *)
Definition subst_arg (ph input a : string) : string :=
  if streq a ph then input
  else match strstr a ph with
       | Some off => snprintf PATH_MAX (str_take off a ++ input)
       | None => a
       end.

(** The engine context but for its two counters. *)
Definition config (h : honggfuzz_t) :=
  (cmdline h, fuzzStdin h, origFlipRate h, useVerifier h, workDir h, fileExtn h).

(** [WIFSTOPPED] of bits/waitstatus.h: the status of a stopped child. *)
Definition WIFSTOPPED (status : Z) : bool := Z.land status 0xff =? 0x7f.

(** The world in which the sample child, continued once and then killed
    by SIGSEGV, is reaped. *)
Definition ex_reaped : world :=
  match arch_reapChild ex_env [(4242, 0xffff); (4242, 11); (4242, 0)]
          ex_fuzzer ex_world with
  | Reaped w' _ => w'
  | _ => ex_world
  end.

(** A template of 513 arguments, one more than the loop of
    [arch_launchChild] visits, with the token inside its first and its
    last argument. *)
Definition beyond_hfuzz : honggfuzz_t :=
  {| cmdline := "a=@@" :: repeat "x" 511 ++ ["b=@@"]; fuzzStdin := false;
     origFlipRate := rate_0_05; useVerifier := false;
     workDir := "/out"; fileExtn := "fuzz";
     crashesCnt := 0; uniqueCrashesCnt := 0 |}.

(** A template of 513 arguments whose first argument holds the token
    after 4090 bytes and whose other arguments do not hold it. *)
Definition limits_cmdline : list string :=
  (long_dir ++ "@@")%string :: repeat "x" 511 ++ ["last"].

Definition limits_hfuzz : honggfuzz_t :=
  {| cmdline := limits_cmdline; fuzzStdin := false;
     origFlipRate := rate_0_05; useVerifier := false;
     workDir := "/out"; fileExtn := "fuzz";
     crashesCnt := 0; uniqueCrashesCnt := 0 |}.

Definition limits_hfuzz_stdin : honggfuzz_t :=
  {| cmdline := limits_cmdline; fuzzStdin := true;
     origFlipRate := rate_0_05; useVerifier := false;
     workDir := "/out"; fileExtn := "fuzz";
     crashesCnt := 0; uniqueCrashesCnt := 0 |}.

(** * Properties *)

(** ** The status macros *)

Lemma WTERMSIG_mod (status : Z) : WTERMSIG status = status mod 128.
Proof. unfold WTERMSIG. change 0x7f with (Z.ones 7). now rewrite Z.land_ones. Qed.

Lemma WTERMSIG_range (status : Z) : 0 <= WTERMSIG status <= 127.
Proof. rewrite WTERMSIG_mod. pose proof (Z.mod_pos_bound status 128). lia. Qed.

Lemma WIFSIGNALED_spec (status : Z) :
  WIFSIGNALED status = true <-> 1 <= WTERMSIG status <= 126.
Proof.
  unfold WIFSIGNALED. fold (WTERMSIG status).
  pose proof (WTERMSIG_range status) as R. set (t := WTERMSIG status) in *.
  rewrite Z.ltb_lt, Z.shiftr_div_pow2 by lia. change (2 ^ 1) with 2.
  unfold to_schar.
  destruct (Z.eq_dec t 127) as [->|N].
  - cbn. lia.
  - rewrite (Z.mod_small (t + 1 + 128) 256) by lia.
    replace (t + 1 + 128 - 128) with (t + 1) by lia.
    split; intro H.
    + destruct (Z.eq_dec t 0) as [->|]; [cbn in H|]; lia.
    + apply Z.div_str_pos. lia.
Qed.

Lemma WIFEXITED_spec (status : Z) : WIFEXITED status = true <-> WTERMSIG status = 0.
Proof. unfold WIFEXITED. apply Z.eqb_eq. Qed.

Lemma WIFCONTINUED_spec (status : Z) : WIFCONTINUED status = true <-> status = 0xffff.
Proof. unfold WIFCONTINUED, W_CONTINUED. apply Z.eqb_eq. Qed.

(** A status is of one kind at most. *)
Lemma continued_not_terminal (status : Z) :
  WIFCONTINUED status = true ->
  WIFEXITED status = false /\ WIFSIGNALED status = false.
Proof. intros H. apply WIFCONTINUED_spec in H. subst. split; reflexivity. Qed.

Lemma exited_not_continued (status : Z) :
  WIFEXITED status = true -> WIFCONTINUED status = false.
Proof.
  intros H. destruct (WIFCONTINUED status) eqn:C; [|reflexivity].
  apply continued_not_terminal in C. destruct C; congruence.
Qed.

Lemma signaled_not_continued (status : Z) :
  WIFSIGNALED status = true -> WIFCONTINUED status = false.
Proof.
  intros H. destruct (WIFCONTINUED status) eqn:C; [|reflexivity].
  apply continued_not_terminal in C. destruct C; congruence.
Qed.

Lemma signaled_not_exited (status : Z) :
  WIFSIGNALED status = true -> WIFEXITED status = false.
Proof.
  intros H. apply WIFSIGNALED_spec in H.
  destruct (WIFEXITED status) eqn:E; [|reflexivity].
  apply WIFEXITED_spec in E. lia.
Qed.

(** ** The signal table *)

Lemma crash_worthy_iff (sig : Z) : is_crash_worthy sig = true <-> crash_worthy sig.
Proof.
  unfold is_crash_worthy, crash_worthy.
  rewrite !orb_true_iff, !Z.eqb_eq. tauto.
Qed.

Lemma arch_sigs_nth (n : nat) (s : sig_entry) :
  nth_error arch_sigs n = Some s ->
  s = {| important := is_crash_worthy (Z.of_nat n);
         descr := signal_name (Z.of_nat n) |}.
Proof.
  set (t := arch_sigs). vm_compute in t. subst t.
  do 65 (destruct n as [|n]; [intros [= <-]; reflexivity|]).
  destruct n; discriminate.
Qed.

(** Every element of the table is what the initializers say: the five
    signals are important and carry their names, the others are not and
    are ["UNKNOWN"]. *)
Lemma arch_sigs_at_spec (sig : Z) (s : sig_entry) :
  arch_sigs_at sig = Some s ->
  s = {| important := is_crash_worthy sig; descr := signal_name sig |}.
Proof.
  unfold arch_sigs_at. destruct (sig <? 0) eqn:L; [discriminate|].
  apply Z.ltb_ge in L. intros H. apply arch_sigs_nth in H.
  now rewrite Z2Nat.id in H.
Qed.

Lemma arch_sigs_at_defined (sig : Z) :
  0 <= sig < NSIG -> exists s, arch_sigs_at sig = Some s.
Proof.
  intros R. unfold arch_sigs_at.
  destruct (sig <? 0) eqn:L; [apply Z.ltb_lt in L; lia|].
  destruct (nth_error arch_sigs (Z.to_nat sig)) eqn:N; [eauto|].
  apply nth_error_None in N. change (List.length arch_sigs) with 65%nat in N.
  unfold NSIG in R. lia.
Qed.

(** A signal of the table outside of the crash-worthy set is not
    important. *)
Lemma arch_sigs_at_boring (sig : Z) :
  0 <= sig < NSIG -> ~ crash_worthy sig ->
  exists s, arch_sigs_at sig = Some s /\ important s = false.
Proof.
  intros R N. destruct (arch_sigs_at_defined sig R) as [s T].
  exists s. split; [exact T|].
  rewrite (arch_sigs_at_spec _ _ T). cbn [important].
  destruct (is_crash_worthy sig) eqn:C; [|reflexivity].
  apply crash_worthy_iff in C. contradiction.
Qed.

Lemma arch_sigs_at_crash_worthy (sig : Z) :
  crash_worthy sig ->
  arch_sigs_at sig = Some {| important := true; descr := signal_name sig |}.
Proof.
  intros [-> | [-> | [-> | [-> | ->]]]]; reflexivity.
Qed.

(** ** Concatenation of strings *)

Lemma str_app_assoc (a b c : string) : (a ++ b) ++ c = a ++ (b ++ c).
Proof. induction a as [|x a IH]; cbn; [reflexivity | now rewrite IH]. Qed.

Lemma str_app_nil_r (a : string) : a ++ "" = a.
Proof. induction a as [|x a IH]; cbn; [reflexivity | now rewrite IH]. Qed.

Lemma str_take_all (n : nat) (s : string) :
  (String.length s <= n)%nat -> str_take n s = s.
Proof.
  revert n. induction s as [|c s IH]; intros [|n] L; cbn in *;
    try reflexivity; try lia.
  rewrite IH by lia. reflexivity.
Qed.

(** A text that fits the buffer is stored whole. *)
Lemma snprintf_fits (size : nat) (s : string) :
  (String.length s < size)%nat -> snprintf size s = s.
Proof. intros L. unfold snprintf. apply str_take_all. lia. Qed.

Lemma prefix_refl (s : string) : String.prefix s s = true.
Proof.
  induction s as [|c s IH]; cbn; [reflexivity|].
  destruct (ascii_dec c c); [exact IH | congruence].
Qed.

Lemma prefix_split (p s : string) :
  String.prefix p s = true -> exists post, s = p ++ post.
Proof.
  revert s. induction p as [|c p IH]; intros s H.
  - now exists s.
  - destruct s as [|d s]; cbn in H; [discriminate|].
    destruct (ascii_dec c d) as [->|]; [|discriminate].
    destruct (IH _ H) as [post ->]. now exists post.
Qed.

Lemma strstr_refl (s : string) : strstr s s = Some 0%nat.
Proof. destruct s; cbn [strstr]; now rewrite prefix_refl. Qed.

(** [strstr] points at an occurrence: the argument is the text before
    it, the needle, and a rest. *)
Lemma strstr_split (hay needle : string) (off : nat) :
  strstr hay needle = Some off ->
  exists post, hay = str_take off hay ++ needle ++ post /\
               String.length (str_take off hay) = off.
Proof.
  revert off. induction hay as [|c hay IH]; intros off; cbn [strstr].
  - destruct (String.prefix needle "") eqn:P; [|discriminate].
    intros [= <-]. destruct (prefix_split _ _ P) as [post E].
    exists post. now split.
  - destruct (String.prefix needle (String c hay)) eqn:P.
    + intros [= <-]. destruct (prefix_split _ _ P) as [post E].
      exists post. now split.
    + destruct (strstr hay needle) as [o|]; [|discriminate].
      intros [= <-]. destruct (IH o eq_refl) as [post [E L]].
      exists post. cbn. now rewrite <- E, L.
Qed.

(** It is the first one: the needle starts at no earlier offset. *)
Lemma strstr_first (hay needle : string) (off : nat) :
  strstr hay needle = Some off ->
  forall k, (k < off)%nat -> String.prefix needle (str_drop k hay) = false.
Proof.
  revert off. induction hay as [|c hay IH]; intros off; cbn [strstr].
  - destruct (String.prefix needle ""); [|discriminate].
    intros [= <-] k Hk. lia.
  - destruct (String.prefix needle (String c hay)) eqn:P.
    + intros [= <-] k Hk. lia.
    + destruct (strstr hay needle) as [o|]; [|discriminate].
      intros [= <-] [|k] Hk; [exact P|].
      cbn [str_drop]. apply (IH o eq_refl). lia.
Qed.

(** The format that [arch_analyzeSignal] asks for is laid out as
    [YYYY-MM-DD.HH:MM:SS]. *)
Lemma util_getLocalTime_layout (t : tm) :
  util_getLocalTime t "%F.%H:%M:%S" =
    four_digits (tm_year t) ++ "-" ++ two_digits (tm_mon t) ++ "-"
      ++ two_digits (tm_mday t) ++ "." ++ two_digits (tm_hour t) ++ ":"
      ++ two_digits (tm_min t) ++ ":" ++ two_digits (tm_sec t).
Proof.
  cbn. unfold conversion. cbn.
  repeat (rewrite str_app_assoc; cbn [append]).
  now rewrite str_app_nil_r.
Qed.

(** ** The branches of [arch_analyzeSignal] *)

Ltac run_analyzer :=
  cbv [bind ret LOG emit sancov_Analyze of_option get_hfuzz put_hfuzz
       sync_fetch_and_add files_copyFile log_to];
  cbn [w_hfuzz w_trace negb orb].

Section Branches.

Variables (e : env) (status : Z) (fuzzer : fuzzer_t) (w : world).

Lemma analyze_continued :
  WIFCONTINUED status = true ->
  arch_analyzeSignal e status fuzzer w = Some (false, w).
Proof. intros C. unfold arch_analyzeSignal. now rewrite C. Qed.

Lemma analyze_exited :
  WIFEXITED status = true ->
  arch_analyzeSignal e status fuzzer w =
    Some (true, log_to w [ Ev_sancov_Analyze (pid fuzzer);
                           Ev_log LOG_D (Msg_exited (pid fuzzer) (WEXITSTATUS status)) ]).
Proof.
  intros E. unfold arch_analyzeSignal.
  rewrite (exited_not_continued _ E), E. run_analyzer.
  now rewrite <- app_assoc.
Qed.

Lemma analyze_unexpected :
  WIFCONTINUED status = false -> WIFEXITED status = false ->
  WIFSIGNALED status = false ->
  arch_analyzeSignal e status fuzzer w =
    Some (true, log_to w [ Ev_log LOG_E (Msg_report_bug (pid fuzzer) status) ]).
Proof.
  intros C E S. unfold arch_analyzeSignal. rewrite C, E, S. reflexivity.
Qed.

Lemma analyze_out_of_table :
  WIFSIGNALED status = true -> arch_sigs_at (WTERMSIG status) = None ->
  arch_analyzeSignal e status fuzzer w = None.
Proof.
  intros S T. unfold arch_analyzeSignal.
  rewrite (signaled_not_continued _ S), (signaled_not_exited _ S), S, T.
  reflexivity.
Qed.

Lemma analyze_boring (sig : sig_entry) :
  WIFSIGNALED status = true -> arch_sigs_at (WTERMSIG status) = Some sig ->
  important sig = false ->
  arch_analyzeSignal e status fuzzer w =
    Some (true, log_to w [ Ev_sancov_Analyze (pid fuzzer);
                           Ev_log LOG_D (Msg_killed (pid fuzzer) (WTERMSIG status));
                           Ev_log LOG_D Msg_not_important ]).
Proof.
  intros S T I. unfold arch_analyzeSignal.
  rewrite (signaled_not_continued _ S), (signaled_not_exited _ S), S, T.
  run_analyzer. rewrite I. run_analyzer.
  now rewrite <- !app_assoc.
Qed.

Lemma analyze_crash (sig : sig_entry) :
  WIFSIGNALED status = true -> arch_sigs_at (WTERMSIG status) = Some sig ->
  important sig = true ->
  arch_analyzeSignal e status fuzzer w =
    Some (true, {| w_hfuzz := counted (w_hfuzz w);
                   w_trace := w_trace w ++
                     crash_events e (w_hfuzz w) (WTERMSIG status) sig fuzzer |}).
Proof.
  intros S T I. unfold arch_analyzeSignal.
  rewrite (signaled_not_continued _ S), (signaled_not_exited _ S), S, T.
  run_analyzer. rewrite I. run_analyzer.
  unfold crash_events, destination.
  destruct (env_copyFile e _ _); run_analyzer;
    rewrite <- !app_assoc; reflexivity.
Qed.

End Branches.

(** ** Every call of [arch_analyzeSignal] takes one of six branches *)

Lemma analyze_cases (e : env) (status : Z) (fuzzer : fuzzer_t) (w : world) :
  analyzed e status fuzzer w (arch_analyzeSignal e status fuzzer w).
Proof.
  destruct (WIFCONTINUED status) eqn:C.
  { rewrite analyze_continued by assumption. now constructor. }
  destruct (WIFEXITED status) eqn:E.
  { rewrite analyze_exited by assumption. now constructor. }
  destruct (WIFSIGNALED status) eqn:S.
  2: { rewrite analyze_unexpected by assumption. now constructor. }
  destruct (arch_sigs_at (WTERMSIG status)) as [sig|] eqn:T.
  2: { rewrite analyze_out_of_table by assumption. now constructor. }
  destruct (important sig) eqn:I.
  - rewrite (analyze_crash _ _ _ _ sig) by assumption. now apply A_crash.
  - rewrite (analyze_boring _ _ _ _ sig) by assumption. now apply (A_boring _ _ _ _ sig).
Qed.

(** The call is defined, and returns, whenever the table has an entry
    for the signal of a killed child: always so for a status that the
    kernel reports, whose signal is below [NSIG]. *)
Lemma analyze_returns (e : env) (status : Z) (fuzzer : fuzzer_t) (w : world) :
  (WIFSIGNALED status = true -> WTERMSIG status < NSIG) ->
  exists b w', arch_analyzeSignal e status fuzzer w = Some (b, w').
Proof.
  intros R. destruct (analyze_cases e status fuzzer w) as [| | |S T| |]; eauto.
  destruct (arch_sigs_at_defined (WTERMSIG status)) as [s Hs].
  - pose proof (WTERMSIG_range status). specialize (R S). lia.
  - congruence.
Qed.

Lemma crash_events_shape (e : env) (h : honggfuzz_t) (termsig : Z)
    (sig : sig_entry) (fuzzer : fuzzer_t) :
  exists tr, crash_events e h termsig sig fuzzer = Ev_sancov_Analyze (pid fuzzer) :: tr
             /\ existsb is_sancov tr = false.
Proof.
  unfold crash_events. cbv zeta. eexists. split; [reflexivity|].
  destruct (env_copyFile e _ _); reflexivity.
Qed.

(** ** Crash triage *)

(** C1.  A status of a child killed by one of SIGILL, SIGFPE, SIGSEGV,
    SIGBUS, SIGABRT makes [arch_analyzeSignal] return [true] after it has
    added one to [crashesCnt] and one to [uniqueCrashesCnt] (an atomic
    add of [1UL], once each, in the arithmetic of [unsigned long]) and
    has called [files_copyFile] once, from the input file to the
    destination it computed.  When the copy fails
    the only further effect is one error line: the counters stay
    incremented. *)
Theorem crash_is_counted_and_saved
    (e : env) (status : Z) (fuzzer : fuzzer_t) (w : world) :
  WIFSIGNALED status = true ->
  crash_worthy (WTERMSIG status) ->
  exists sig w',
    arch_sigs_at (WTERMSIG status) = Some sig /\
    arch_analyzeSignal e status fuzzer w = Some (true, w') /\
    crashesCnt (w_hfuzz w') = ulong (crashesCnt (w_hfuzz w) + 1) /\
    uniqueCrashesCnt (w_hfuzz w') = ulong (uniqueCrashesCnt (w_hfuzz w) + 1) /\
    let newname := destination e (w_hfuzz w) sig fuzzer in
    let ok := env_copyFile e (fileName fuzzer) newname in
    w_trace w' =
      (w_trace w ++
       [ Ev_sancov_Analyze (pid fuzzer);
         Ev_log LOG_D (Msg_killed (pid fuzzer) (WTERMSIG status));
         Ev_log LOG_I (Msg_saving (fileName fuzzer) newname);
         Ev_fetch_and_add CrashesCnt;
         Ev_fetch_and_add UniqueCrashesCnt;
         Ev_copyFile (fileName fuzzer) newname ok ]
       ++ (if ok then []
           else [Ev_log LOG_E (Msg_couldnt_save (fileName fuzzer) newname)]))%list.
Proof.
  intros S CW. pose proof (arch_sigs_at_crash_worthy _ CW) as T.
  eexists; eexists. split; [exact T|].
  split; [apply (analyze_crash e status fuzzer w _ S T); reflexivity|].
  repeat split.
Qed.

Lemma crash_is_counted_and_saved_witness :
  exists sig w',
    arch_sigs_at (WTERMSIG 11) = Some sig /\
    arch_analyzeSignal ex_env 11 ex_fuzzer ex_world = Some (true, w') /\
    crashesCnt (w_hfuzz w') = ulong (0 + 1) /\
    uniqueCrashesCnt (w_hfuzz w') = ulong (0 + 1) /\
    w_trace w' =
      ([] ++
      [ Ev_sancov_Analyze 4242;
        Ev_log LOG_D (Msg_killed 4242 (WTERMSIG 11));
        Ev_log LOG_I (Msg_saving "/tmp/f1" (destination ex_env ex_hfuzz sig ex_fuzzer));
        Ev_fetch_and_add CrashesCnt;
        Ev_fetch_and_add UniqueCrashesCnt;
        Ev_copyFile "/tmp/f1" (destination ex_env ex_hfuzz sig ex_fuzzer) false ]
      ++ [Ev_log LOG_E
            (Msg_couldnt_save "/tmp/f1" (destination ex_env ex_hfuzz sig ex_fuzzer))])%list.
Proof.
  apply (crash_is_counted_and_saved ex_env 11 ex_fuzzer ex_world).
  - reflexivity.
  - right; right; left; reflexivity.
Defined.

(** C2.  A status of a normal exit, and a status of a child killed by a
    signal whose entry of [arch_sigs] is not important, make
    [arch_analyzeSignal] return [true] with the engine context as it was
    (so both counters unchanged) and with no increment and no copy among
    its effects. *)
Theorem boring_status_has_no_crash_effect
    (e : env) (status : Z) (fuzzer : fuzzer_t) (w : world) :
  WIFEXITED status = true \/
  (WIFSIGNALED status = true /\
   exists sig, arch_sigs_at (WTERMSIG status) = Some sig /\ important sig = false) ->
  exists w' tr,
    arch_analyzeSignal e status fuzzer w = Some (true, w') /\
    w_hfuzz w' = w_hfuzz w /\
    crashesCnt (w_hfuzz w') = crashesCnt (w_hfuzz w) /\
    uniqueCrashesCnt (w_hfuzz w') = uniqueCrashesCnt (w_hfuzz w) /\
    w_trace w' = (w_trace w ++ tr)%list /\
    existsb crash_effect tr = false.
Proof.
  intros [E | [S [sig [T I]]]].
  - eexists; eexists. split; [apply analyze_exited; exact E|].
    repeat split.
  - eexists; eexists. split; [apply (analyze_boring _ _ _ _ sig); assumption|].
    repeat split.
Qed.

Lemma boring_status_has_no_crash_effect_witness :
  exists w' tr,
    arch_analyzeSignal ex_env SIGTERM ex_fuzzer ex_world = Some (true, w') /\
    w_hfuzz w' = ex_hfuzz /\
    crashesCnt (w_hfuzz w') = 0 /\
    uniqueCrashesCnt (w_hfuzz w') = 0 /\
    w_trace w' = ([] ++ tr)%list /\
    existsb crash_effect tr = false.
Proof.
  apply (boring_status_has_no_crash_effect ex_env SIGTERM ex_fuzzer ex_world).
  right. split; [reflexivity|].
  exists {| important := false; descr := "UNKNOWN" |}. split; reflexivity.
Defined.

(** One turn of the loop of [arch_reapChild] on a status of a continued
    child: the loop goes on with what [wait4] returns next. *)
Lemma reap_continued_step
    (e : env) (status : Z) (fuzzer : fuzzer_t) (w : world) (wait4 : list (Z * Z)) :
  WIFCONTINUED status = true ->
  arch_reapChild e ((pid fuzzer, status) :: wait4) fuzzer w =
  arch_reapChild e wait4 fuzzer
    (log_to w [Ev_log LOG_D (Msg_came_back (pid fuzzer) status)]).
Proof.
  intros C. cbn [arch_reapChild]. rewrite Z.eqb_refl.
  unfold bind at 1. cbv [LOG emit].
  rewrite (analyze_continued _ _ _ _ C). reflexivity.
Qed.

(** A result of [wait4] for another process, or a failed call, is passed
    over. *)
Lemma reap_other_step
    (e : env) (r status : Z) (fuzzer : fuzzer_t) (w : world) (wait4 : list (Z * Z)) :
  r <> pid fuzzer ->
  arch_reapChild e ((r, status) :: wait4) fuzzer w = arch_reapChild e wait4 fuzzer w.
Proof.
  intros N. cbn [arch_reapChild]. apply Z.eqb_neq in N. now rewrite N.
Qed.

(** However many times the child is continued, the loop does not return
    on those statuses: it is still waiting when [wait4] has returned
    nothing else. *)
Lemma reap_only_continued
    (e : env) (fuzzer : fuzzer_t) (statuses : list Z) :
  Forall (fun status => WIFCONTINUED status = true) statuses ->
  forall w, exists w',
    arch_reapChild e (map (fun status => (pid fuzzer, status)) statuses) fuzzer w
      = Waiting w' /\
    w_hfuzz w' = w_hfuzz w.
Proof.
  induction 1 as [|status statuses C _ IH]; intros w.
  - exists w. split; reflexivity.
  - cbn [map]. rewrite (reap_continued_step _ _ _ _ _ C).
    destruct (IH (log_to w [Ev_log LOG_D (Msg_came_back (pid fuzzer) status)]))
      as [w' [R H]].
    exists w'. split; [exact R | exact H].
Qed.

(** C6.  On a status of a continued child [arch_analyzeSignal] returns
    [false] and leaves the world as it was: no coverage hook, no copy, no
    increment.  [arch_reapChild], given that status for its child, does
    not return: it goes on to the next [wait4] on the same [fuzzer], so
    on the same pid, its only effect being its own debug line. *)
Theorem continued_keeps_waiting
    (e : env) (status : Z) (fuzzer : fuzzer_t) (w : world) :
  WIFCONTINUED status = true ->
  arch_analyzeSignal e status fuzzer w = Some (false, w) /\
  (forall wait4,
     arch_reapChild e ((pid fuzzer, status) :: wait4) fuzzer w =
     arch_reapChild e wait4 fuzzer
       (log_to w [Ev_log LOG_D (Msg_came_back (pid fuzzer) status)])) /\
  arch_reapChild e [(pid fuzzer, status)] fuzzer w =
    Waiting (log_to w [Ev_log LOG_D (Msg_came_back (pid fuzzer) status)]).
Proof.
  intros C.
  split; [apply analyze_continued; exact C|].
  split; [intros wait4; apply reap_continued_step; exact C|].
  rewrite reap_continued_step by exact C. reflexivity.
Qed.

Lemma continued_keeps_waiting_witness :
  arch_analyzeSignal ex_env 0xffff ex_fuzzer ex_world = Some (false, ex_world) /\
  (forall wait4,
     arch_reapChild ex_env ((4242, 0xffff) :: wait4) ex_fuzzer ex_world =
     arch_reapChild ex_env wait4 ex_fuzzer
       (log_to ex_world [Ev_log LOG_D (Msg_came_back 4242 0xffff)])) /\
  arch_reapChild ex_env [(4242, 0xffff)] ex_fuzzer ex_world =
    Waiting (log_to ex_world [Ev_log LOG_D (Msg_came_back 4242 0xffff)]).
Proof.
  apply (continued_keeps_waiting ex_env 0xffff ex_fuzzer ex_world).
  reflexivity.
Defined.

(** C8.  A status that is neither of a continued child, nor of an exit,
    nor of a death by signal makes [arch_analyzeSignal] return [true]
    with one effect, the error line that asks for a report: no coverage
    hook, no copy, no increment, and the call is defined and returns. *)
Theorem unexpected_status_is_logged
    (e : env) (status : Z) (fuzzer : fuzzer_t) (w : world) :
  WIFCONTINUED status = false ->
  WIFEXITED status = false ->
  WIFSIGNALED status = false ->
  arch_analyzeSignal e status fuzzer w =
    Some (true, {| w_hfuzz := w_hfuzz w;
                   w_trace := w_trace w ++
                     [Ev_log LOG_E (Msg_report_bug (pid fuzzer) status)] |}).
Proof. apply analyze_unexpected. Qed.

(** [0x137f] is the status of a child stopped by SIGSTOP. *)
Lemma unexpected_status_is_logged_witness :
  arch_analyzeSignal ex_env 0x137f ex_fuzzer ex_world =
    Some (true, {| w_hfuzz := ex_hfuzz;
                   w_trace := [Ev_log LOG_E (Msg_report_bug 4242 0x137f)] |}).
Proof.
  apply (unexpected_status_is_logged ex_env 0x137f ex_fuzzer ex_world);
    reflexivity.
Defined.

(** C7.  For a status of an exit or of a death by signal, the effects
    of a call that returns begin with the one call of [sancov_Analyze]
    and hold no other: the hook runs once, and before every increment
    and every copy of that call.  The call returns whenever [arch_sigs]
    has an entry for the signal. *)
Theorem coverage_hook_once_and_first
    (e : env) (status : Z) (fuzzer : fuzzer_t) (w : world) :
  WIFEXITED status = true \/ WIFSIGNALED status = true ->
  (WTERMSIG status < NSIG ->
   exists b w', arch_analyzeSignal e status fuzzer w = Some (b, w')) /\
  (forall b w',
     arch_analyzeSignal e status fuzzer w = Some (b, w') ->
     exists tr,
       w_trace w' = (w_trace w ++ Ev_sancov_Analyze (pid fuzzer) :: tr)%list /\
       existsb is_sancov tr = false).
Proof.
  intros T. split.
  - intros R. apply analyze_returns. intros _. exact R.
  - intros b w' H.
    pose proof (analyze_cases e status fuzzer w) as A. rewrite H in A.
    inversion A as [C| E | C E S | | sig S Ts I | sig S Ts I]; subst.
    + apply continued_not_terminal in C. destruct C, T; congruence.
    + eexists. split; reflexivity.
    + destruct T; congruence.
    + eexists. split; reflexivity.
    + destruct (crash_events_shape e (w_hfuzz w) (WTERMSIG status) sig fuzzer)
        as [tr [-> N]].
      exists tr. split; [reflexivity | exact N].
Qed.

Lemma coverage_hook_once_and_first_witness :
  (WTERMSIG 11 < NSIG ->
   exists b w', arch_analyzeSignal ex_env 11 ex_fuzzer ex_world = Some (b, w')) /\
  (forall b w',
     arch_analyzeSignal ex_env 11 ex_fuzzer ex_world = Some (b, w') ->
     exists tr,
       w_trace w' = ([] ++ Ev_sancov_Analyze 4242 :: tr)%list /\
       existsb is_sancov tr = false).
Proof.
  apply (coverage_hook_once_and_first ex_env 11 ex_fuzzer ex_world).
  right. reflexivity.
Defined.

(** ** The counters *)

Lemma ulong_succ (z : Z) : 0 <= z < ULONG_MAX -> ulong (z + 1) = z + 1.
Proof. unfold ULONG_MAX, ulong. intros R. apply Z.mod_small. lia. Qed.

(** C9, as the code has it.  A call of [arch_analyzeSignal] that returns
    leaves both counters as they were or adds one to each in unsigned
    64-bit arithmetic.  Equal counters stay equal for every status, so
    that [uniqueCrashesCnt <= crashesCnt] holds after the call, and that
    order is kept as well from every state in which it holds and
    [crashesCnt] is below [ULONG_MAX].  The call returns whenever
    [arch_sigs] has an entry for the signal. *)
Theorem counters_step (e : env) (status : Z) (fuzzer : fuzzer_t) (w : world) :
  ((WIFSIGNALED status = true -> WTERMSIG status < NSIG) ->
   exists b w', arch_analyzeSignal e status fuzzer w = Some (b, w')) /\
  (forall b w',
     arch_analyzeSignal e status fuzzer w = Some (b, w') ->
     let h := w_hfuzz w in
     let h' := w_hfuzz w' in
     (crashesCnt h' = crashesCnt h /\ uniqueCrashesCnt h' = uniqueCrashesCnt h \/
      crashesCnt h' = ulong (crashesCnt h + 1) /\
      uniqueCrashesCnt h' = ulong (uniqueCrashesCnt h + 1)) /\
     (uniqueCrashesCnt h = crashesCnt h ->
      uniqueCrashesCnt h' = crashesCnt h' /\ uniqueCrashesCnt h' <= crashesCnt h') /\
     (0 <= uniqueCrashesCnt h <= crashesCnt h -> crashesCnt h < ULONG_MAX ->
      0 <= uniqueCrashesCnt h' <= crashesCnt h')).
Proof.
  split; [apply analyze_returns|].
  intros b w' H. cbv zeta.
  pose proof (analyze_cases e status fuzzer w) as A. rewrite H in A.
  inversion A; subst; cbn [w_hfuzz log_to counted with_crashesCnt
    with_uniqueCrashesCnt crashesCnt uniqueCrashesCnt];
    try (split; [left; split; reflexivity | split; [lia | tauto]]).
  split; [right; split; reflexivity|]. split.
  - intros ->. split; [reflexivity | lia].
  - intros R L. rewrite !ulong_succ by lia. lia.
Qed.

Lemma counters_step_witness :
  0 <= uniqueCrashesCnt (w_hfuzz ex_world_after)
    <= crashesCnt (w_hfuzz ex_world_after).
Proof.
  refine (proj2 (proj2 (proj2 (counters_step ex_env 11 ex_fuzzer ex_world)
                          true ex_world_after eq_refl)) _ _).
  - vm_compute. split; discriminate.
  - reflexivity.
Defined.

(** C9, as it is worded, fails where the increment wraps around: from
    [crashesCnt = ULONG_MAX] and [uniqueCrashesCnt = 0], where
    [uniqueCrashesCnt <= crashesCnt] holds, a SIGSEGV leaves
    [crashesCnt = 0] and [uniqueCrashesCnt = 1]. *)
Lemma order_lost_at_ULONG_MAX :
  let w := {| w_hfuzz := with_crashesCnt ex_hfuzz ULONG_MAX; w_trace := [] |} in
  uniqueCrashesCnt (w_hfuzz w) <= crashesCnt (w_hfuzz w) /\
  exists w',
    arch_analyzeSignal ex_env 11 ex_fuzzer w = Some (true, w') /\
    crashesCnt (w_hfuzz w') = 0 /\
    uniqueCrashesCnt (w_hfuzz w') = 1 /\
    ~ uniqueCrashesCnt (w_hfuzz w') <= crashesCnt (w_hfuzz w').
Proof.
  cbv zeta. split; [vm_compute; discriminate|].
  exists {| w_hfuzz := counted (with_crashesCnt ex_hfuzz ULONG_MAX);
            w_trace := crash_events ex_env (with_crashesCnt ex_hfuzz ULONG_MAX) 11
                         {| important := true; descr := "SIGSEGV" |} ex_fuzzer |}.
  split; [vm_compute; reflexivity|].
  split; [vm_compute; reflexivity|]. split; [vm_compute; reflexivity|].
  vm_compute. intros H. apply H. reflexivity.
Qed.

(** ** The name of the artifact *)

Lemma copies_crash_events (e : env) (h : honggfuzz_t) (termsig : Z)
    (sig : sig_entry) (fuzzer : fuzzer_t) :
  copies (crash_events e h termsig sig fuzzer) =
    [(fileName fuzzer, destination e h sig fuzzer)].
Proof.
  unfold crash_events. cbv zeta. destruct (env_copyFile e _ _); reflexivity.
Qed.

(** C3, as the code has it.  When [origFlipRate == 0.0] and
    [useVerifier] is set, a crash, of whichever of the five signals and
    of whichever pid, is copied once, to [origFileName] as [snprintf]
    stores it in the [PATH_MAX] bytes of [newname]: its first
    [PATH_MAX - 1] bytes, hence [origFileName] itself, with nothing
    added, whenever it is shorter than [PATH_MAX]. *)
Theorem replay_name_is_original_cut
    (e : env) (status : Z) (fuzzer : fuzzer_t) (w : world) :
  WIFSIGNALED status = true ->
  crash_worthy (WTERMSIG status) ->
  SFeqb (origFlipRate (w_hfuzz w)) (S754_zero false) = true ->
  useVerifier (w_hfuzz w) = true ->
  exists w' tr,
    arch_analyzeSignal e status fuzzer w = Some (true, w') /\
    w_trace w' = (w_trace w ++ tr)%list /\
    copies tr = [(fileName fuzzer, str_take (PATH_MAX - 1) (origFileName fuzzer))] /\
    ((String.length (origFileName fuzzer) < PATH_MAX)%nat ->
     copies tr = [(fileName fuzzer, origFileName fuzzer)]).
Proof.
  intros S CW Z V. pose proof (arch_sigs_at_crash_worthy _ CW) as T.
  eexists; eexists.
  split; [apply (analyze_crash e status fuzzer w _ S T); reflexivity|].
  split; [reflexivity|].
  rewrite copies_crash_events. unfold destination, crash_newname, dry_run.
  rewrite Z, V. cbn [andb]. split; [reflexivity|].
  intros L. now rewrite snprintf_fits.
Qed.

Lemma replay_name_is_original_cut_witness :
  exists w' tr,
    arch_analyzeSignal ex_env SIGABRT ex_fuzzer
      {| w_hfuzz := replay_hfuzz; w_trace := [] |} = Some (true, w') /\
    w_trace w' = ([] ++ tr)%list /\
    copies tr = [("/tmp/f1", str_take (PATH_MAX - 1) "seed1")] /\
    ((String.length "seed1" < PATH_MAX)%nat -> copies tr = [("/tmp/f1", "seed1")]).
Proof.
  apply (replay_name_is_original_cut ex_env SIGABRT ex_fuzzer
           {| w_hfuzz := replay_hfuzz; w_trace := [] |}).
  - reflexivity.
  - right; right; right; right; reflexivity.
  - reflexivity.
  - reflexivity.
Defined.

(** C3, as it is worded, fails for a name that does not fit [newname]:
    in a replay, the crash of an input whose [origFileName] has
    [PATH_MAX] bytes is copied to a name one byte shorter. *)
Lemma replay_name_cut_at_PATH_MAX :
  let fuzzer := {| pid := 4242; fileName := "/tmp/f1"; origFileName := long_name |} in
  let w := {| w_hfuzz := replay_hfuzz; w_trace := [] |} in
  SFeqb (origFlipRate replay_hfuzz) (S754_zero false) = true /\
  useVerifier replay_hfuzz = true /\
  exists w' dst,
    arch_analyzeSignal ex_env 11 fuzzer w = Some (true, w') /\
    copies (w_trace w') = [("/tmp/f1", dst)] /\
    String.length dst = 4095%nat /\
    String.length (origFileName fuzzer) = 4096%nat /\
    dst <> origFileName fuzzer.
Proof.
  cbv zeta. split; [reflexivity|]. split; [reflexivity|].
  exists {| w_hfuzz := counted replay_hfuzz;
            w_trace := crash_events ex_env replay_hfuzz 11
                         {| important := true; descr := "SIGSEGV" |}
                         {| pid := 4242; fileName := "/tmp/f1";
                            origFileName := long_name |} |}.
  exists (str_take 4095 long_name).
  split; [vm_compute; reflexivity|]. split; [vm_compute; reflexivity|].
  split; [vm_compute; reflexivity|]. split; [vm_compute; reflexivity|].
  intros H. apply (f_equal String.length) in H. vm_compute in H. discriminate H.
Qed.

(** C4, as the code has it.  Outside of a replay (the rate is not 0.0,
    or the verifier is off), a crash is copied once, to the text
    [workDir/SIGNAL.pid.timestamp.origFileName.fileExtn] as [snprintf]
    stores it in the [PATH_MAX] bytes of [newname], that is to its first
    [PATH_MAX - 1] bytes, the whole of it whenever it is shorter than
    [PATH_MAX].  SIGNAL is the name of the signal, the pid is printed in
    decimal, and the timestamp is what [util_getLocalTime] writes for the
    format ["%F.%H:%M:%S"], the layout [YYYY-MM-DD.HH:MM:SS]. *)
Theorem crash_path_is_composed_cut
    (e : env) (status : Z) (fuzzer : fuzzer_t) (w : world) :
  WIFSIGNALED status = true ->
  crash_worthy (WTERMSIG status) ->
  SFeqb (origFlipRate (w_hfuzz w)) (S754_zero false) = false \/
  useVerifier (w_hfuzz w) = false ->
  let h := w_hfuzz w in
  let path :=
    workDir h ++ "/" ++ signal_name (WTERMSIG status) ++ "."
      ++ fmt_d (pid fuzzer) ++ "." ++ env_getLocalTime e "%F.%H:%M:%S" ++ "."
      ++ origFileName fuzzer ++ "." ++ fileExtn h in
  exists w' tr,
    arch_analyzeSignal e status fuzzer w = Some (true, w') /\
    w_trace w' = (w_trace w ++ tr)%list /\
    copies tr = [(fileName fuzzer, str_take (PATH_MAX - 1) path)] /\
    ((String.length path < PATH_MAX)%nat -> copies tr = [(fileName fuzzer, path)]).
Proof.
  intros S CW N. cbv zeta.
  pose proof (arch_sigs_at_crash_worthy _ CW) as T.
  assert (dry_run (w_hfuzz w) = false) as D.
  { unfold dry_run. destruct N as [-> | ->];
      [reflexivity | apply andb_false_r]. }
  eexists; eexists.
  split; [apply (analyze_crash e status fuzzer w _ S T); reflexivity|].
  split; [reflexivity|].
  rewrite copies_crash_events. unfold destination, crash_newname.
  rewrite D. cbn [descr]. unfold crash_path. split; [reflexivity|].
  intros L. now rewrite snprintf_fits.
Qed.

(** The scenario of the SIGSEGV of pid 4242 on "seed1", at 10:00:00 on
    2024-01-02, with the extension "fuzz" and the directory "/out". *)
Lemma crash_path_is_composed_cut_witness :
  exists w' tr,
    arch_analyzeSignal ex_env 11 ex_fuzzer ex_world = Some (true, w') /\
    w_trace w' = tr /\
    copies tr = [("/tmp/f1", "/out/SIGSEGV.4242.2024-01-02.10:00:00.seed1.fuzz")].
Proof.
  destruct (crash_path_is_composed_cut ex_env 11 ex_fuzzer ex_world)
    as (w' & tr & A & Tr & _ & C).
  - reflexivity.
  - right; right; left; reflexivity.
  - right; reflexivity.
  - exists w', tr. split; [exact A|]. split; [exact Tr|].
    apply C. apply Nat.ltb_lt. vm_compute. reflexivity.
Defined.

(** C4, as it is worded, fails for a path that does not fit [newname]:
    with a [workDir] of 4090 bytes the composed path has 4134 bytes, and
    the crash is copied to its first 4095 bytes, which end inside the
    name of the signal. *)
Lemma crash_path_cut_at_PATH_MAX :
  let w := {| w_hfuzz := long_dir_hfuzz; w_trace := [] |} in
  let path := long_dir ++ "/SIGSEGV.4242.2024-01-02.10:00:00.seed1.fuzz" in
  useVerifier long_dir_hfuzz = false /\
  exists w' dst,
    arch_analyzeSignal ex_env 11 ex_fuzzer w = Some (true, w') /\
    copies (w_trace w') = [("/tmp/f1", dst)] /\
    dst = long_dir ++ "/SIGS" /\
    String.length path = 4134%nat /\
    dst <> path.
Proof.
  cbv zeta. split; [reflexivity|].
  exists {| w_hfuzz := counted long_dir_hfuzz;
            w_trace := crash_events ex_env long_dir_hfuzz 11
                         {| important := true; descr := "SIGSEGV" |} ex_fuzzer |}.
  exists (long_dir ++ "/SIGS").
  split; [vm_compute; reflexivity|]. split; [vm_compute; reflexivity|].
  split; [reflexivity|]. split; [vm_compute; reflexivity|].
  intros H. apply (f_equal String.length) in H. vm_compute in H. discriminate H.
Qed.

(** ** The argument vector of [arch_launchChild] *)

Section LaunchFacts.

Variables (ph : string) (h : honggfuzz_t) (input : string).

Local Abbreviation kind := (kind ph h).
Local Abbreviation is_sub := (is_sub ph h).
Local Abbreviation ptr_of := (ptr_of ph h).
Local Abbreviation data_of := (data_of ph h input).
Local Abbreviation ptrs := (ptrs ph h).
Local Abbreviation visited := (visited h).
Local Abbreviation final_argData := (final_argData ph h input).

Lemma launch_body_eq (x : nat) (a : string) (fr : frame) :
  launch_body ph h input x a fr =
    {| args := args fr ++ [ptr_of x a]; argData := data_of (argData fr) a |}.
Proof.
  unfold launch_body, ptr_of, data_of, kind.
  destruct (negb (fuzzStdin h) && streq a ph); [reflexivity|].
  destruct (if negb (fuzzStdin h) then strstr a ph else None); reflexivity.
Qed.

Lemma launch_loop_eq (rest : list string) :
  forall (x : nat) (fr : frame),
    launch_loop ph h input x rest fr =
      {| args := args fr ++ ptrs x (firstn (ARGS_MAX - x) rest);
         argData := fold_left data_of (firstn (ARGS_MAX - x) rest) (argData fr) |}.
Proof.
  induction rest as [|a rest IH]; intros x fr; cbn [launch_loop].
  - rewrite firstn_nil. cbn. rewrite app_nil_r. now destruct fr.
  - destruct (x <? ARGS_MAX)%nat eqn:L.
    + apply Nat.ltb_lt in L.
      replace (ARGS_MAX - x)%nat with (S (ARGS_MAX - S x)) by lia.
      rewrite IH, launch_body_eq. cbn [args argData firstn ptrs fold_left].
      now rewrite <- app_assoc.
    + apply Nat.ltb_ge in L.
      replace (ARGS_MAX - x)%nat with 0%nat by lia.
      cbn. rewrite app_nil_r. now destruct fr.
Qed.

Lemma ptrs_nth (l : list string) :
  forall x i, nth_error (ptrs x l) i = option_map (ptr_of (x + i)) (nth_error l i).
Proof.
  induction l as [|a l IH]; intros x [|i]; cbn; try reflexivity.
  - now rewrite Nat.add_0_r.
  - rewrite IH. now rewrite Nat.add_succ_r.
Qed.

Lemma visited_nth (i : nat) (a : string) :
  nth_error visited i = Some a <->
  (i < ARGS_MAX)%nat /\ nth_error (cmdline h) i = Some a.
Proof.
  unfold visited. rewrite nth_error_firstn.
  destruct (i <? ARGS_MAX)%nat eqn:L.
  - apply Nat.ltb_lt in L. tauto.
  - apply Nat.ltb_ge in L. split; [discriminate | lia].
Qed.

(** Each element of the vector, from the argument at its place. *)
Lemma launch_argv_nth (i : nat) :
  nth_error (launch_argv ph h input) i =
    option_map (fun a => match kind a with
                         | Exact => input
                         | Sub _ => final_argData
                         | Plain => a
                         end) (nth_error visited i).
Proof.
  unfold launch_argv. rewrite launch_loop_eq. cbn [args argData].
  rewrite app_nil_l, Nat.sub_0_r. fold visited. fold final_argData.
  rewrite nth_error_map, ptrs_nth. cbn [Nat.add].
  destruct (nth_error visited i) as [a|] eqn:N; [|reflexivity].
  cbn [option_map]. f_equal. unfold ptr_of.
  destruct (kind a); cbn [deref argData]; try reflexivity.
  apply visited_nth in N. now apply nth_error_nth.
Qed.

Lemma fold_data_no_sub (l : list string) (d : string) :
  (forall k c, nth_error l k = Some c -> is_sub c = false) ->
  fold_left data_of l d = d.
Proof.
  revert d. induction l as [|a l IH]; intros d N; [reflexivity|].
  cbn [fold_left]. rewrite IH.
  - specialize (N 0%nat a eq_refl). unfold is_sub in N. unfold data_of.
    now destruct (kind a).
  - intros k c Hk. apply (N (S k)). exact Hk.
Qed.

(** [argData] ends with the text written for the last argument that
    went through [snprintf]. *)
Lemma fold_data_last (l : list string) :
  forall (d : string) (j : nat) (b : string) (offb : nat),
    nth_error l j = Some b -> kind b = Sub offb ->
    (forall k c, (j < k)%nat -> nth_error l k = Some c -> is_sub c = false) ->
    fold_left data_of l d = snprintf PATH_MAX (splice input offb b).
Proof.
  induction l as [|a l IH]; intros d [|j] b offb N K Last;
    try discriminate; cbn in N; cbn [fold_left].
  - injection N as ->. rewrite fold_data_no_sub.
    + unfold data_of. now rewrite K.
    + intros k c Hk. apply (Last (S k)); [lia | exact Hk].
  - apply (IH _ j b offb N K). intros k c Hjk Hk.
    apply (Last (S k)); [lia | exact Hk].
Qed.

Lemma kind_stdin : fuzzStdin h = true -> forall a, kind a = Plain.
Proof. intros F a. unfold kind. now rewrite F. Qed.

Lemma kind_exact (a : string) : fuzzStdin h = false -> a = ph -> kind a = Exact.
Proof.
  intros F ->. unfold kind, streq. now rewrite F, String.eqb_refl.
Qed.

Lemma kind_sub (a : string) (off : nat) :
  fuzzStdin h = false -> a <> ph -> strstr a ph = Some off -> kind a = Sub off.
Proof.
  intros F N S. unfold kind, streq. rewrite F. cbn [negb andb].
  apply String.eqb_neq in N. now rewrite N, S.
Qed.

Lemma kind_plain (a : string) :
  fuzzStdin h = false -> strstr a ph = None -> kind a = Plain.
Proof.
  intros F S. unfold kind, streq. rewrite F. cbn [negb andb].
  destruct (String.eqb a ph) eqn:E.
  - apply String.eqb_eq in E. subst. rewrite strstr_refl in S. discriminate.
  - now rewrite S.
Qed.

Lemma not_sub (c : string) :
  fuzzStdin h = false -> c = ph \/ strstr c ph = None -> is_sub c = false.
Proof.
  intros F [E | S]; unfold is_sub.
  - now rewrite kind_exact.
  - now rewrite kind_plain.
Qed.

End LaunchFacts.

(** C5, as the code has it.  The loop visits the first [ARGS_MAX]
    arguments of the template.  With [fuzzStdin] the vector is those
    arguments, untouched.  Without it, the vector has one element for
    each of them: the input path for an argument equal to the token, the
    argument itself for one without the token, and, for an argument that
    holds the token without being equal to it and that no later visited
    argument of that kind follows, the text before the first occurrence
    of the token and then the input path (what follows the token is not
    kept), as [snprintf] stores it in the [PATH_MAX] bytes of [argData].  For the token [spec_token] the template
    target, --in=@@, rest and the input /tmp/f1 give target,
    --in=/tmp/f1, rest, and the template itself with [fuzzStdin]. *)
Theorem substitution_policy (ph : string) (h : honggfuzz_t) (input : string) :
  (fuzzStdin h = true ->
   launch_argv ph h input = firstn ARGS_MAX (cmdline h)) /\
  (fuzzStdin h = false ->
   List.length (launch_argv ph h input)
     = Nat.min ARGS_MAX (List.length (cmdline h)) /\
   forall i a,
     (i < ARGS_MAX)%nat -> nth_error (cmdline h) i = Some a ->
     (a = ph -> nth_error (launch_argv ph h input) i = Some input) /\
     (strstr a ph = None -> nth_error (launch_argv ph h input) i = Some a) /\
     (forall off,
        a <> ph -> strstr a ph = Some off ->
        (exists post, a = str_take off a ++ ph ++ post) /\
        (forall k, (k < off)%nat -> String.prefix ph (str_drop k a) = false) /\
        ((forall k c, (i < k < ARGS_MAX)%nat -> nth_error (cmdline h) k = Some c ->
                      c = ph \/ strstr c ph = None) ->
         nth_error (launch_argv ph h input) i
           = Some (snprintf PATH_MAX (str_take off a ++ input))))) /\
  launch_argv spec_token ex_hfuzz "/tmp/f1" = ["target"; "--in=/tmp/f1"; "rest"] /\
  launch_argv spec_token ex_hfuzz_stdin "/tmp/f1" = ["target"; "--in=@@"; "rest"].
Proof.
  split; [|split; [|split; reflexivity]].
  - intros F. apply nth_error_ext. intros n. rewrite launch_argv_nth.
    fold (visited h). destruct (nth_error (visited h) n) as [a|]; [|reflexivity].
    cbn [option_map]. now rewrite kind_stdin.
  - intros F. split.
    + unfold launch_argv. rewrite launch_loop_eq. cbn [args argData].
      rewrite app_nil_l, length_map, Nat.sub_0_r.
      assert (forall l x, List.length (ptrs ph h x l) = List.length l) as PL.
      { induction l as [|a l IH]; intros x; cbn; [reflexivity | now rewrite IH]. }
      rewrite PL. apply length_firstn.
    + intros i a Li N.
      assert (nth_error (visited h) i = Some a) as V by now apply visited_nth.
      pose proof (launch_argv_nth ph h input i) as A. rewrite V in A.
      cbn [option_map] in A. split; [|split].
      * intros E. rewrite A. now rewrite kind_exact.
      * intros S. rewrite A. now rewrite kind_plain.
      * intros off Na S. split.
        { destruct (strstr_split _ _ _ S) as [post [E _]]. now exists post. }
        split; [exact (strstr_first _ _ _ S)|].
        intros Last. rewrite A, (kind_sub ph h a off F Na S). f_equal.
        apply (fold_data_last ph h input _ _ i a off V).
        -- now apply kind_sub.
        -- intros k c Lk Hk. apply visited_nth in Hk. destruct Hk as [Lk' Hk].
           apply (not_sub ph h c F). apply (Last k c); [lia | exact Hk].
Qed.

Lemma substitution_policy_witness :
  nth_error (launch_argv spec_token ex_hfuzz "/tmp/f1") 1 = Some "--in=/tmp/f1".
Proof.
  destruct (substitution_policy spec_token ex_hfuzz "/tmp/f1") as [_ [P _]].
  destruct (P eq_refl) as [_ Q].
  destruct (Q 1%nat "--in=@@") as [_ [_ R]].
  - unfold ARGS_MAX. lia.
  - reflexivity.
  - destruct (R 5%nat) as [_ [_ L]].
    + discriminate.
    + reflexivity.
    + apply L. intros k c [L1 _] Hk.
      destruct k as [|[|[|k]]]; try lia.
      * injection Hk as <-. right. reflexivity.
      * destruct k; discriminate Hk.
Defined.

(** C5, as it is worded, fails at the two bounds of the loop.  The
    template [limits_cmdline] has 513 arguments: the last one, which
    does not hold the token, is not passed, with or without
    [fuzzStdin], since the loop stops at [ARGS_MAX]; and the first one,
    the only one that holds the token, is passed as the first
    [PATH_MAX - 1] bytes of the text before the token followed by the
    input path, which leaves /tmp/ of the path /tmp/f1. *)
Lemma substitution_stops_at_the_bounds :
  List.length limits_cmdline = 513%nat /\
  fuzzStdin limits_hfuzz = false /\
  nth_error (cmdline limits_hfuzz) 512 = Some "last" /\
  strstr "last" spec_token = None /\
  nth_error (launch_argv spec_token limits_hfuzz "/tmp/f1") 512 = None /\
  nth_error (cmdline limits_hfuzz) 0 = Some (long_dir ++ "@@") /\
  strstr (long_dir ++ "@@") spec_token = Some 4090%nat /\
  forallb (fun a => match strstr a spec_token with None => true | Some _ => false end)
    (tl (cmdline limits_hfuzz)) = true /\
  nth_error (launch_argv spec_token limits_hfuzz "/tmp/f1") 0
    = Some (long_dir ++ "/tmp/") /\
  nth_error (launch_argv spec_token limits_hfuzz "/tmp/f1") 0
    <> Some (str_take 4090 (long_dir ++ "@@") ++ "/tmp/f1") /\
  fuzzStdin limits_hfuzz_stdin = true /\
  cmdline limits_hfuzz_stdin = limits_cmdline /\
  List.length (launch_argv spec_token limits_hfuzz_stdin "/tmp/f1") = 512%nat /\
  launch_argv spec_token limits_hfuzz_stdin "/tmp/f1" <> limits_cmdline.
Proof.
  do 9 (split; [vm_compute; reflexivity|]).
  split.
  { intros E. apply (f_equal (option_map String.length)) in E.
    vm_compute in E. discriminate E. }
  do 3 (split; [vm_compute; reflexivity|]).
  intros E. apply (f_equal (@List.length string)) in E.
  vm_compute in E. discriminate E.
Qed.

(** The shared buffer at work, on a template that the statement of C5
    above does not cover for its first spliced argument: with the token
    inside two arguments, the second element of the vector is not the
    text before the token in a=@@ followed by the input path, but what
    was written for b=@@. *)
Lemma substitution_overwritten :
  fuzzStdin two_sub_hfuzz = false /\
  nth_error (cmdline two_sub_hfuzz) 1 = Some "a=@@" /\
  strstr "a=@@" spec_token = Some 2%nat /\
  launch_argv spec_token two_sub_hfuzz "/tmp/f1" = ["target"; "b=/tmp/f1"; "b=/tmp/f1"] /\
  nth_error (launch_argv spec_token two_sub_hfuzz "/tmp/f1") 1
    <> Some (str_take 2 "a=@@" ++ "/tmp/f1").
Proof.
  repeat split. discriminate.
Qed.

(** C10.  Without [fuzzStdin], let [b], at [j], be the last visited
    argument that holds the token without being equal to it.  Every
    visited argument [a] of that kind, at whichever place [i], is passed
    as the text written for [b]: the one buffer [argData] holds it when
    [execvp] reads the vector.  So the element at [i] is not the text of
    [a]'s own substitution unless the two agree. *)
Theorem placeholder_arguments_share_argData
    (ph : string) (h : honggfuzz_t) (input : string)
    (j : nat) (b : string) (offb : nat) :
  fuzzStdin h = false ->
  (j < ARGS_MAX)%nat -> nth_error (cmdline h) j = Some b ->
  b <> ph -> strstr b ph = Some offb ->
  (forall k c, (j < k < ARGS_MAX)%nat -> nth_error (cmdline h) k = Some c ->
               c = ph \/ strstr c ph = None) ->
  forall i a off,
    (i < ARGS_MAX)%nat -> nth_error (cmdline h) i = Some a ->
    a <> ph -> strstr a ph = Some off ->
    nth_error (launch_argv ph h input) i
      = Some (snprintf PATH_MAX (str_take offb b ++ input)) /\
    (snprintf PATH_MAX (str_take off a ++ input)
       <> snprintf PATH_MAX (str_take offb b ++ input) ->
     nth_error (launch_argv ph h input) i
       <> Some (snprintf PATH_MAX (str_take off a ++ input))).
Proof.
  intros F Lj Nj Nb Sb Last i a off Li Ni Na Sa.
  assert (nth_error (launch_argv ph h input) i
          = Some (snprintf PATH_MAX (str_take offb b ++ input))) as R.
  { rewrite launch_argv_nth.
    assert (nth_error (visited h) i = Some a) as V by now apply visited_nth.
    rewrite V. cbn [option_map]. rewrite (kind_sub ph h a off F Na Sa). f_equal.
    apply (fold_data_last ph h input _ _ j b offb).
    - now apply visited_nth.
    - now apply kind_sub.
    - intros k c Lk Hk. apply visited_nth in Hk. destruct Hk as [Lk' Hk].
      apply (not_sub ph h c F). apply (Last k c); [lia | exact Hk]. }
  split; [exact R|]. intros D. rewrite R. congruence.
Qed.

Lemma placeholder_arguments_share_argData_witness :
  nth_error (launch_argv spec_token two_sub_hfuzz "/tmp/f1") 1 = Some "b=/tmp/f1" /\
  nth_error (launch_argv spec_token two_sub_hfuzz "/tmp/f1") 2 = Some "b=/tmp/f1" /\
  nth_error (launch_argv spec_token two_sub_hfuzz "/tmp/f1") 1 <> Some "a=/tmp/f1".
Proof.
  assert (forall k c, (2 < k < ARGS_MAX)%nat ->
            nth_error (cmdline two_sub_hfuzz) k = Some c ->
            c = spec_token \/ strstr c spec_token = None) as Last.
  { intros k c [L _] Hk. destruct k as [|[|[|k]]]; try lia.
    destruct k; discriminate Hk. }
  assert ((2 < ARGS_MAX)%nat) as L2 by (unfold ARGS_MAX; lia).
  assert ((1 < ARGS_MAX)%nat) as L1 by (unfold ARGS_MAX; lia).
  pose proof (placeholder_arguments_share_argData spec_token two_sub_hfuzz "/tmp/f1"
                2 "b=@@" 2 eq_refl L2 eq_refl ltac:(discriminate) eq_refl Last) as T.
  destruct (T 1%nat "a=@@" 2%nat L1 eq_refl ltac:(discriminate) eq_refl) as [A1 D1].
  destruct (T 2%nat "b=@@" 2%nat L2 eq_refl ltac:(discriminate) eq_refl) as [A2 _].
  split; [exact A1|]. split; [exact A2|].
  apply D1. discriminate.
Defined.

(** C10, as it is worded, fails past [ARGS_MAX].  In [beyond_hfuzz] two
    arguments hold the token without being equal to it, a=@@ at 0 and
    b=@@ at 512, the last argument of the template.  The loop never
    visits the latter: the vector ends before its place, and its first
    element is the text written for a=@@, not the one of b=@@. *)
Lemma sharing_stops_at_ARGS_MAX :
  fuzzStdin beyond_hfuzz = false /\
  List.length (cmdline beyond_hfuzz) = 513%nat /\
  nth_error (cmdline beyond_hfuzz) 0 = Some "a=@@" /\
  nth_error (cmdline beyond_hfuzz) 512 = Some "b=@@" /\
  "a=@@" <> spec_token /\ "b=@@" <> spec_token /\
  strstr "a=@@" spec_token = Some 2%nat /\
  strstr "b=@@" spec_token = Some 2%nat /\
  nth_error (launch_argv spec_token beyond_hfuzz "/tmp/f1") 0 = Some "a=/tmp/f1" /\
  nth_error (launch_argv spec_token beyond_hfuzz "/tmp/f1") 0
    <> Some (snprintf PATH_MAX (str_take 2 "b=@@" ++ "/tmp/f1")) /\
  nth_error (launch_argv spec_token beyond_hfuzz "/tmp/f1") 512 = None.
Proof.
  do 4 (split; [vm_compute; reflexivity|]).
  do 2 (split; [discriminate|]).
  do 3 (split; [vm_compute; reflexivity|]).
  split; [|vm_compute; reflexivity].
  vm_compute. discriminate.
Qed.

(** * Further properties *)

(** ** The signal table *)

(** X1.  Every signal from 0 to [NSIG - 1] has an entry in [arch_sigs]:
    important exactly for SIGILL, SIGFPE, SIGSEGV, SIGBUS and SIGABRT,
    which carry their names, and ["UNKNOWN"] for every other signal.
    Outside of that range the table has no entry. *)
Theorem arch_sigs_table (sig : Z) :
  (0 <= sig < NSIG ->
   exists s,
     arch_sigs_at sig = Some s /\
     (important s = true <-> crash_worthy sig) /\
     descr s = signal_name sig /\
     (~ crash_worthy sig -> descr s = "UNKNOWN")) /\
  (sig < 0 \/ NSIG <= sig -> arch_sigs_at sig = None).
Proof.
  split.
  - intros R. destruct (arch_sigs_at_defined sig R) as [s T].
    exists s. split; [exact T|].
    rewrite (arch_sigs_at_spec _ _ T). cbn [important descr].
    split; [apply crash_worthy_iff|]. split; [reflexivity|].
    intros N. unfold signal_name, crash_worthy in *.
    repeat match goal with
           | |- context [?a =? ?b] =>
               destruct (Z.eqb_spec a b); [exfalso; tauto|]
           end.
    reflexivity.
  - intros O. unfold arch_sigs_at.
    destruct (sig <? 0) eqn:L; [reflexivity|].
    apply Z.ltb_ge in L. apply nth_error_None.
    change (List.length arch_sigs) with 65%nat. unfold NSIG in O. lia.
Qed.

Lemma arch_sigs_table_witness :
  exists s,
    arch_sigs_at 9 = Some s /\
    (important s = true <-> crash_worthy 9) /\
    descr s = signal_name 9 /\
    (~ crash_worthy 9 -> descr s = "UNKNOWN").
Proof.
  apply (proj1 (arch_sigs_table 9)). unfold NSIG. lia.
Defined.

(** ** [arch_analyzeSignal] as a whole *)

Lemma signaled_not_exited_contra (status : Z) :
  WIFEXITED status = true -> WIFSIGNALED status = false.
Proof.
  intros E. destruct (WIFSIGNALED status) eqn:S; [|reflexivity].
  apply signaled_not_exited in S. congruence.
Qed.

(** X2.  A call of [arch_analyzeSignal] returns [false] on a status of
    a continued child and [true] on every other status: the only result
    that keeps [arch_reapChild] waiting is the one for SIGCONT. *)
Theorem analyze_true_unless_continued
    (e : env) (status : Z) (fuzzer : fuzzer_t) (w : world) :
  (WIFSIGNALED status = true -> WTERMSIG status < NSIG) ->
  exists w',
    arch_analyzeSignal e status fuzzer w = Some (negb (WIFCONTINUED status), w').
Proof.
  intros R. destruct (analyze_returns e status fuzzer w R) as [b [w' H]].
  exists w'. rewrite H. f_equal. f_equal.
  pose proof (analyze_cases e status fuzzer w) as A. rewrite H in A.
  inversion A as [C| E | C E S | | sig S Ts I | sig S Ts I]; subst.
  - now rewrite C.
  - now rewrite (exited_not_continued _ E).
  - now rewrite C.
  - now rewrite (signaled_not_continued _ S).
  - now rewrite (signaled_not_continued _ S).
Qed.

Lemma analyze_true_unless_continued_witness :
  exists w',
    arch_analyzeSignal ex_env 0 ex_fuzzer ex_world = Some (negb (WIFCONTINUED 0), w').
Proof.
  apply (analyze_true_unless_continued ex_env 0 ex_fuzzer ex_world).
  discriminate.
Defined.

(** X3.  What a call does depends on one test: whether the child was
    killed by one of the five signals.  If so the context is the one
    with both counters incremented and the effects hold one copy, from
    the input file to the destination; if not the context is unchanged
    and the effects hold no increment and no copy. *)
Theorem analyze_persists_iff_crash
    (e : env) (status : Z) (fuzzer : fuzzer_t) (w : world) :
  (WIFSIGNALED status = true -> WTERMSIG status < NSIG) ->
  exists b w' tr,
    arch_analyzeSignal e status fuzzer w = Some (b, w') /\
    w_trace w' = (w_trace w ++ tr)%list /\
    if WIFSIGNALED status && is_crash_worthy (WTERMSIG status)
    then w_hfuzz w' = counted (w_hfuzz w) /\
         exists sig, arch_sigs_at (WTERMSIG status) = Some sig /\
           copies tr = [(fileName fuzzer, destination e (w_hfuzz w) sig fuzzer)]
    else w_hfuzz w' = w_hfuzz w /\ existsb crash_effect tr = false.
Proof.
  intros R. destruct (analyze_returns e status fuzzer w R) as [b [w' H]].
  exists b, w'.
  pose proof (analyze_cases e status fuzzer w) as A. rewrite H in A.
  cut (exists tr,
         w_trace w' = (w_trace w ++ tr)%list /\
         if WIFSIGNALED status && is_crash_worthy (WTERMSIG status)
         then w_hfuzz w' = counted (w_hfuzz w) /\
              exists sig, arch_sigs_at (WTERMSIG status) = Some sig /\
                copies tr = [(fileName fuzzer, destination e (w_hfuzz w) sig fuzzer)]
         else w_hfuzz w' = w_hfuzz w /\ existsb crash_effect tr = false).
  { intros [tr P]. exists tr. split; [exact H | exact P]. }
  clear H.
  inversion A as [C| E | C E S | | sig S Ts I | sig S Ts I]; subst.
  - exists []. split; [now rewrite app_nil_r|].
    destruct (continued_not_terminal _ C) as [_ ->]. now split.
  - eexists. split; [reflexivity|].
    rewrite (signaled_not_exited_contra _ E). now split.
  - eexists. split; [reflexivity|]. rewrite S. now split.
  - eexists. split; [reflexivity|].
    rewrite S. pose proof (arch_sigs_at_spec _ _ Ts) as Es.
    rewrite Es in I. cbn [important] in I. rewrite I. now split.
  - eexists. split; [reflexivity|].
    rewrite S. pose proof (arch_sigs_at_spec _ _ Ts) as Es.
    assert (is_crash_worthy (WTERMSIG status) = true) as ->
      by (rewrite Es in I; exact I).
    cbn [andb]. split; [reflexivity|].
    exists sig. split; [exact Ts | apply copies_crash_events].
Qed.

Lemma analyze_persists_iff_crash_witness :
  exists b w' tr,
    arch_analyzeSignal ex_env 15 ex_fuzzer ex_world = Some (b, w') /\
    w_trace w' = ([] ++ tr)%list /\
    w_hfuzz w' = ex_hfuzz /\ existsb crash_effect tr = false.
Proof.
  apply (analyze_persists_iff_crash ex_env 15 ex_fuzzer ex_world).
  intros _. reflexivity.
Defined.

(** The flag of a core dump is no part of the terminating signal. *)
Lemma WTERMSIG_core (status : Z) : WTERMSIG (Z.lor status 0x80) = WTERMSIG status.
Proof.
  unfold WTERMSIG. rewrite Z.land_lor_distr_l.
  change (Z.land 0x80 0x7f) with 0. apply Z.lor_0_r.
Qed.

(** X4.  For a child killed by a signal, a call depends on the status
    through the terminating signal alone: two statuses with the same
    [WTERMSIG] have the same result and effects, so that the flag of a
    core dump (0x80) changes nothing. *)
Theorem analyze_by_terminating_signal
    (e : env) (status status' : Z) (fuzzer : fuzzer_t) (w : world) :
  WIFSIGNALED status = true ->
  (WTERMSIG status' = WTERMSIG status ->
   arch_analyzeSignal e status' fuzzer w = arch_analyzeSignal e status fuzzer w) /\
  arch_analyzeSignal e (Z.lor status 0x80) fuzzer w
    = arch_analyzeSignal e status fuzzer w.
Proof.
  intros S.
  assert (forall s, WTERMSIG s = WTERMSIG status ->
            arch_analyzeSignal e s fuzzer w = arch_analyzeSignal e status fuzzer w) as K.
  { intros s T.
    assert (WIFSIGNALED s = true) as S'.
    { apply WIFSIGNALED_spec. rewrite T. now apply WIFSIGNALED_spec. }
    unfold arch_analyzeSignal.
    rewrite (signaled_not_continued _ S), (signaled_not_exited _ S), S.
    rewrite (signaled_not_continued _ S'), (signaled_not_exited _ S'), S'.
    now rewrite T. }
  split; [apply K|]. apply K. apply WTERMSIG_core.
Qed.

(** 11 is SIGSEGV, 139 is SIGSEGV with the flag of a core dump. *)
Lemma analyze_by_terminating_signal_witness :
  arch_analyzeSignal ex_env 139 ex_fuzzer ex_world
    = arch_analyzeSignal ex_env 11 ex_fuzzer ex_world.
Proof.
  apply (proj2 (analyze_by_terminating_signal ex_env 11 11 ex_fuzzer ex_world eq_refl)).
Defined.

(** X5.  A call never touches the configuration: the command line, the
    standard-input flag, the mutation rate, the verifier flag, the work
    directory and the extension are after it what they were before. *)
Theorem analyze_keeps_config
    (e : env) (status : Z) (fuzzer : fuzzer_t) (w : world) (b : bool) (w' : world) :
  arch_analyzeSignal e status fuzzer w = Some (b, w') ->
  config (w_hfuzz w') = config (w_hfuzz w).
Proof.
  intros H. pose proof (analyze_cases e status fuzzer w) as A. rewrite H in A.
  inversion A; subst; reflexivity.
Qed.

Lemma analyze_keeps_config_witness :
  config (w_hfuzz ex_world_after) = config ex_hfuzz.
Proof.
  apply (analyze_keeps_config ex_env 11 ex_fuzzer ex_world true ex_world_after).
  vm_compute. reflexivity.
Defined.

(** ** Names of artifacts never meet *)

Lemma str_app_inv_head (a x y : string) : a ++ x = a ++ y -> x = y.
Proof.
  induction a as [|c a IH]; cbn; intros H; [exact H|].
  injection H as H. now apply IH.
Qed.

(** Two texts that agree after a dotless part and a full stop agree on
    that part and on the rest. *)
Lemma dotless_split (a b x y : string) :
  dotless a = true -> dotless b = true ->
  a ++ "." ++ x = b ++ "." ++ y -> a = b /\ x = y.
Proof.
  revert b. induction a as [|c a IH]; intros [|d b] Da Db H; cbn in *.
  - injection H as H. now split.
  - injection H as Hc _. subst d. discriminate Db.
  - injection H as Hc _. subst c. discriminate Da.
  - injection H as Hc H. subst d.
    apply andb_prop in Da. apply andb_prop in Db.
    destruct (IH b (proj2 Da) (proj2 Db) H) as [-> ->]. now split.
Qed.

Lemma string_of_uint_dotless (d : uint) : dotless (NilEmpty.string_of_uint d) = true.
Proof. induction d; cbn; try reflexivity; exact IHd. Qed.

Lemma string_of_uint_inj (d d' : uint) :
  NilEmpty.string_of_uint d = NilEmpty.string_of_uint d' -> d = d'.
Proof.
  revert d'. induction d; intros [] H; cbn in H; try discriminate;
    try reflexivity; injection H as H; f_equal; now apply IHd.
Qed.

Lemma nz_string_of_uint_dotless (d : uint) :
  dotless (NilZero.string_of_uint d) = true.
Proof.
  destruct d; try reflexivity;
    match goal with
    | |- dotless (NilZero.string_of_uint ?x) = true =>
        exact (string_of_uint_dotless x)
    end.
Qed.

Lemma fmt_d_dotless (z : Z) : dotless (fmt_d z) = true.
Proof.
  unfold fmt_d, NilZero.string_of_int.
  destruct (Z.to_int z) as [d|d]; [apply nz_string_of_uint_dotless|].
  cbn [dotless]. rewrite nz_string_of_uint_dotless. reflexivity.
Qed.

Lemma to_int_nonnil (z : Z) : Z.to_int z <> Pos Nil /\ Z.to_int z <> Neg Nil.
Proof.
  destruct z as [|p|p]; cbn; (split; [|]); try discriminate;
    intros [= E]; exact (DecimalPos.Unsigned.to_uint_nonnil p E).
Qed.

(** [%d] prints different numbers differently. *)
Lemma fmt_d_inj (z z' : Z) : fmt_d z = fmt_d z' -> z = z'.
Proof.
  unfold fmt_d. intros H. apply DecimalZ.to_int_inj.
  destruct (to_int_nonnil z) as [P N], (to_int_nonnil z') as [P' N'].
  pose proof (NilZero.isi _ P N) as I. rewrite H in I.
  rewrite (NilZero.isi _ P' N') in I. now injection I.
Qed.

Lemma signal_name_dotless (sig : Z) : dotless (signal_name sig) = true.
Proof.
  unfold signal_name.
  repeat match goal with
         | |- context [?a =? ?b] => destruct (a =? b)
         end; reflexivity.
Qed.

Lemma signal_name_inj (sig sig' : Z) :
  crash_worthy sig -> crash_worthy sig' ->
  signal_name sig = signal_name sig' -> sig = sig'.
Proof.
  intros [-> | [-> | [-> | [-> | ->]]]] [-> | [-> | [-> | [-> | ->]]]];
    cbn; intros H; try reflexivity; discriminate H.
Qed.

(** X6.  Outside of a replay, within one work directory, the name of an
    artifact tells the signal and the pid: when the composed names fit
    the [PATH_MAX] bytes of [newname], two crashes of different signals
    or of different pids get different destinations, whatever the
    times, the inputs and the extensions. *)
Theorem destination_tells_signal_and_pid
    (e e' : env) (h h' : honggfuzz_t) (termsig termsig' : Z)
    (sig sig' : sig_entry) (fuzzer fuzzer' : fuzzer_t) :
  crash_worthy termsig -> crash_worthy termsig' ->
  arch_sigs_at termsig = Some sig -> arch_sigs_at termsig' = Some sig' ->
  dry_run h = false -> dry_run h' = false ->
  workDir h = workDir h' ->
  (String.length
     (crash_path h (descr sig) fuzzer (env_getLocalTime e "%F.%H:%M:%S"))
   < PATH_MAX)%nat ->
  (String.length
     (crash_path h' (descr sig') fuzzer' (env_getLocalTime e' "%F.%H:%M:%S"))
   < PATH_MAX)%nat ->
  termsig <> termsig' \/ pid fuzzer <> pid fuzzer' ->
  destination e h sig fuzzer <> destination e' h' sig' fuzzer'.
Proof.
  intros CW CW' T T' D D' W L L' Ne.
  cut (destination e h sig fuzzer = destination e' h' sig' fuzzer' ->
       termsig = termsig' /\ pid fuzzer = pid fuzzer').
  { intros K E. destruct (K E) as [E1 E2]. destruct Ne; contradiction. }
  clear Ne.
  unfold destination, crash_newname. rewrite D, D'.
  rewrite !snprintf_fits by assumption.
  rewrite (arch_sigs_at_spec _ _ T), (arch_sigs_at_spec _ _ T'). cbn [descr].
  unfold crash_path. rewrite W. intros H.
  apply str_app_inv_head in H. cbn [append] in H. injection H as H.
  apply dotless_split in H; try apply signal_name_dotless.
  destruct H as [N H].
  apply dotless_split in H; try apply fmt_d_dotless.
  destruct H as [P _]. split.
  - now apply signal_name_inj.
  - now apply fmt_d_inj.
Qed.

(** The SIGSEGV of pid 4242 and the SIGABRT of pid 4243. *)
Lemma destination_tells_signal_and_pid_witness :
  destination ex_env ex_hfuzz {| important := true; descr := "SIGSEGV" |} ex_fuzzer
  <> destination ex_env ex_hfuzz {| important := true; descr := "SIGABRT" |}
       {| pid := 4243; fileName := "/tmp/f2"; origFileName := "seed1" |}.
Proof.
  apply (destination_tells_signal_and_pid ex_env ex_env ex_hfuzz ex_hfuzz
           SIGSEGV SIGABRT).
  - right; right; left; reflexivity.
  - right; right; right; right; reflexivity.
  - reflexivity.
  - reflexivity.
  - reflexivity.
  - reflexivity.
  - reflexivity.
  - apply Nat.ltb_lt. vm_compute. reflexivity.
  - apply Nat.ltb_lt. vm_compute. reflexivity.
  - left. discriminate.
Defined.

(** ** The loop of [arch_reapChild] *)

Lemma copies_app (a b : list event) : copies (a ++ b) = (copies a ++ copies b)%list.
Proof.
  induction a as [|ev a IH]; [reflexivity|].
  destruct ev; cbn; rewrite IH; reflexivity.
Qed.

Lemma came_back_quiet (fuzzer : fuzzer_t) (wait4 : list (Z * Z)) :
  copies (came_back fuzzer wait4) = [] /\
  filter is_sancov (came_back fuzzer wait4) = [] /\
  existsb crash_effect (came_back fuzzer wait4) = false.
Proof.
  induction wait4 as [|[r status] wait4 IH]; cbn [came_back]; [now repeat split|].
  destruct (r =? pid fuzzer); [cbn; exact IH | exact IH].
Qed.

Lemma log_to_log_to (w : world) (a b : list event) :
  log_to (log_to w a) b = log_to w (a ++ b).
Proof. unfold log_to. cbn. now rewrite app_assoc. Qed.

Lemma log_to_nil (w : world) : log_to w [] = w.
Proof. destruct w. unfold log_to. cbn. now rewrite app_nil_r. Qed.

(** Over results on which the loop goes on, it only writes its debug
    lines. *)
Lemma reap_transient (e : env) (fuzzer : fuzzer_t) (pre wait4 : list (Z * Z)) :
  forallb (transient fuzzer) pre = true ->
  forall w,
    arch_reapChild e (pre ++ wait4) fuzzer w
      = arch_reapChild e wait4 fuzzer (log_to w (came_back fuzzer pre)).
Proof.
  induction pre as [|[r status] pre IH]; intros T w.
  - cbn. now rewrite log_to_nil.
  - cbn [forallb] in T. apply andb_prop in T. destruct T as [T1 T].
    rewrite <- app_comm_cons. cbn [came_back].
    unfold transient in T1. cbn [fst snd] in T1.
    destruct (r =? pid fuzzer) eqn:E.
    + apply Z.eqb_eq in E. subst r. cbn [negb orb] in T1.
      rewrite (reap_continued_step _ _ _ _ _ T1), (IH T).
      now rewrite log_to_log_to.
    + apply Z.eqb_neq in E. rewrite (reap_other_step _ _ _ _ _ _ E). apply IH, T.
Qed.

Lemma analyze_false_inv
    (e : env) (status : Z) (fuzzer : fuzzer_t) (w w' : world) :
  arch_analyzeSignal e status fuzzer w = Some (false, w') ->
  WIFCONTINUED status = true /\ w' = w.
Proof.
  intros H. pose proof (analyze_cases e status fuzzer w) as A. rewrite H in A.
  inversion A; subst. now split.
Qed.

Lemma analyze_true_inv
    (e : env) (status : Z) (fuzzer : fuzzer_t) (w w' : world) :
  arch_analyzeSignal e status fuzzer w = Some (true, w') ->
  WIFCONTINUED status = false.
Proof.
  intros H. pose proof (analyze_cases e status fuzzer w) as A. rewrite H in A.
  inversion A as [C| E | C E S | | sig S Ts I | sig S Ts I]; subst.
  - now apply exited_not_continued.
  - exact C.
  - now apply signaled_not_continued.
  - now apply signaled_not_continued.
Qed.

(** One turn of the loop for a result that is for the child. *)
Lemma reap_child_step
    (e : env) (status : Z) (fuzzer : fuzzer_t) (w : world) (wait4 : list (Z * Z)) :
  arch_reapChild e ((pid fuzzer, status) :: wait4) fuzzer w =
    match arch_analyzeSignal e status fuzzer
            (log_to w [Ev_log LOG_D (Msg_came_back (pid fuzzer) status)]) with
    | None => Undefined
    | Some (true, w') => Reaped w' wait4
    | Some (false, w') => arch_reapChild e wait4 fuzzer w'
    end.
Proof. cbn [arch_reapChild]. now rewrite Z.eqb_refl. Qed.

(** X7.  [arch_reapChild] returns at the first status of its child that
    is not of a continued child: the results of [wait4] before it, for
    other processes or of continuations, only leave debug lines, the
    status is analyzed once, in an engine context that is still the one
    of the start, and the results after it are left unread. *)
Theorem reap_returns_at_first_determinate
    (e : env) (fuzzer : fuzzer_t) (pre rest : list (Z * Z)) (status : Z) (w : world) :
  forallb (transient fuzzer) pre = true ->
  WIFCONTINUED status = false ->
  (WIFSIGNALED status = true -> WTERMSIG status < NSIG) ->
  exists w',
    arch_reapChild e (pre ++ (pid fuzzer, status) :: rest) fuzzer w = Reaped w' rest /\
    arch_analyzeSignal e status fuzzer
      (log_to w (came_back fuzzer pre
                 ++ [Ev_log LOG_D (Msg_came_back (pid fuzzer) status)]))
      = Some (true, w').
Proof.
  intros T C R. rewrite (reap_transient _ _ _ _ T), reap_child_step.
  rewrite log_to_log_to.
  destruct (analyze_returns e status fuzzer
              (log_to w (came_back fuzzer pre
                         ++ [Ev_log LOG_D (Msg_came_back (pid fuzzer) status)])) R)
    as [b [w' H]].
  rewrite H. destruct b.
  - exists w'. now split.
  - apply analyze_false_inv in H. destruct H as [C' _]. congruence.
Qed.

Lemma reap_reaped_inv (e : env) (fuzzer : fuzzer_t) (wait4 : list (Z * Z)) :
  forall (w w' : world) (rest : list (Z * Z)),
    arch_reapChild e wait4 fuzzer w = Reaped w' rest ->
    exists pre status,
      wait4 = (pre ++ (pid fuzzer, status) :: rest)%list /\
      forallb (transient fuzzer) pre = true /\
      WIFCONTINUED status = false /\
      arch_analyzeSignal e status fuzzer
        (log_to w (came_back fuzzer pre
                   ++ [Ev_log LOG_D (Msg_came_back (pid fuzzer) status)]))
        = Some (true, w').
Proof.
  induction wait4 as [|[r status] wait4 IH]; intros w w' rest H; [discriminate H|].
  destruct (Z.eq_dec r (pid fuzzer)) as [->|N].
  - rewrite reap_child_step in H.
    destruct (arch_analyzeSignal e status fuzzer _) as [[[|] w1]|] eqn:A;
      [| |discriminate H].
    + injection H as -> ->. exists [], status. cbn [app came_back].
      repeat split; [now apply (analyze_true_inv _ _ _ _ _ A) | exact A].
    + destruct (analyze_false_inv _ _ _ _ _ A) as [C ->].
      destruct (IH _ _ _ H) as (pre & s & -> & T & Cs & As).
      exists ((pid fuzzer, status) :: pre), s.
      split; [reflexivity|]. split.
      * cbn [forallb]. unfold transient at 1. cbn [fst snd]. rewrite C, orb_true_r. exact T.
      * split; [exact Cs|]. cbn [came_back]. rewrite Z.eqb_refl.
        rewrite log_to_log_to in As. exact As.
  - rewrite (reap_other_step _ _ _ _ _ _ N) in H.
    destruct (IH _ _ _ H) as (pre & s & -> & T & Cs & As).
    exists ((r, status) :: pre), s.
    split; [reflexivity|]. apply Z.eqb_neq in N. split.
    + cbn [forallb]. unfold transient at 1. cbn [fst snd]. rewrite N. exact T.
    + split; [exact Cs|]. cbn [came_back]. rewrite N. exact As.
Qed.

Lemma reap_waiting_inv (e : env) (fuzzer : fuzzer_t) (wait4 : list (Z * Z)) :
  forall (w w' : world),
    arch_reapChild e wait4 fuzzer w = Waiting w' ->
    forallb (transient fuzzer) wait4 = true.
Proof.
  induction wait4 as [|[r status] wait4 IH]; intros w w' H; [reflexivity|].
  cbn [forallb]. unfold transient at 1. cbn [fst snd].
  destruct (Z.eq_dec r (pid fuzzer)) as [->|N].
  - rewrite reap_child_step in H.
    destruct (arch_analyzeSignal e status fuzzer _) as [[[|] w1]|] eqn:A;
      try discriminate H.
    destruct (analyze_false_inv _ _ _ _ _ A) as [C ->].
    rewrite C, orb_true_r. apply (IH _ _ H).
  - rewrite (reap_other_step _ _ _ _ _ _ N) in H.
    apply Z.eqb_neq in N. rewrite N. apply (IH _ _ H).
Qed.

(** X8.  [arch_reapChild] returns only then: when it has returned, the
    results of [wait4] that it read end with a status of its child that
    is not of a continued child, the one it analyzed last, and all the
    results before were for other processes or of continuations. *)
Theorem reap_returns_only_on_determinate
    (e : env) (fuzzer : fuzzer_t) (wait4 rest : list (Z * Z)) (w w' : world) :
  arch_reapChild e wait4 fuzzer w = Reaped w' rest ->
  exists pre status,
    wait4 = (pre ++ (pid fuzzer, status) :: rest)%list /\
    forallb (transient fuzzer) pre = true /\
    WIFCONTINUED status = false /\
    arch_analyzeSignal e status fuzzer
      (log_to w (came_back fuzzer pre
                 ++ [Ev_log LOG_D (Msg_came_back (pid fuzzer) status)]))
      = Some (true, w').
Proof. apply reap_reaped_inv. Qed.

(** X9.  [arch_reapChild] is still waiting exactly when every result of
    [wait4] so far was for another process, a failed call, or a
    continuation of its child; it has then written its debug lines and
    nothing else, and the engine context is untouched. *)
Theorem reap_waits_iff_transient
    (e : env) (fuzzer : fuzzer_t) (wait4 : list (Z * Z)) (w w' : world) :
  arch_reapChild e wait4 fuzzer w = Waiting w' <->
  forallb (transient fuzzer) wait4 = true /\
  w' = log_to w (came_back fuzzer wait4).
Proof.
  assert (forallb (transient fuzzer) wait4 = true ->
          arch_reapChild e wait4 fuzzer w
            = Waiting (log_to w (came_back fuzzer wait4))) as K.
  { intros T. rewrite <- (app_nil_r wait4) at 1.
    now rewrite (reap_transient _ _ _ _ T). }
  split.
  - intros H. pose proof (reap_waiting_inv _ _ _ _ _ H) as T.
    split; [exact T|]. rewrite (K T) in H. now injection H.
  - intros [T ->]. exact (K T).
Qed.

Lemma reap_waits_iff_transient_witness :
  arch_reapChild ex_env [(-1, 0); (4242, 0xffff); (17, 139)] ex_fuzzer ex_world
    = Waiting (log_to ex_world
                 (came_back ex_fuzzer [(-1, 0); (4242, 0xffff); (17, 139)])).
Proof.
  apply (proj2 (reap_waits_iff_transient ex_env ex_fuzzer
                  [(-1, 0); (4242, 0xffff); (17, 139)] ex_world _)).
  split; reflexivity.
Defined.

Lemma reap_returns_at_first_determinate_witness :
  exists w',
    arch_reapChild ex_env ([(-1, 0); (4242, 0xffff)] ++ (4242, 139) :: [(4242, 0)])
      ex_fuzzer ex_world = Reaped w' [(4242, 0)] /\
    arch_analyzeSignal ex_env 139 ex_fuzzer
      (log_to ex_world (came_back ex_fuzzer [(-1, 0); (4242, 0xffff)]
                        ++ [Ev_log LOG_D (Msg_came_back 4242 139)]))
      = Some (true, w').
Proof.
  apply (reap_returns_at_first_determinate ex_env ex_fuzzer
           [(-1, 0); (4242, 0xffff)] [(4242, 0)] 139 ex_world).
  - reflexivity.
  - reflexivity.
  - intros _. reflexivity.
Defined.

Lemma reap_returns_only_on_determinate_witness :
  exists pre status,
    [(4242, 0xffff); (4242, 11); (4242, 0)]
      = (pre ++ (pid ex_fuzzer, status) :: [(4242, 0)])%list /\
    forallb (transient ex_fuzzer) pre = true /\
    WIFCONTINUED status = false /\
    arch_analyzeSignal ex_env status ex_fuzzer
      (log_to ex_world (came_back ex_fuzzer pre
                        ++ [Ev_log LOG_D (Msg_came_back (pid ex_fuzzer) status)]))
      = Some (true, ex_reaped).
Proof.
  apply (reap_returns_only_on_determinate ex_env ex_fuzzer
           [(4242, 0xffff); (4242, 11); (4242, 0)] [(4242, 0)] ex_world ex_reaped).
  vm_compute. reflexivity.
Defined.

Lemma analyze_effects_bound
    (e : env) (status : Z) (fuzzer : fuzzer_t) (w : world) (b : bool) (w' : world) :
  arch_analyzeSignal e status fuzzer w = Some (b, w') ->
  (w_hfuzz w' = w_hfuzz w \/ w_hfuzz w' = counted (w_hfuzz w)) /\
  exists tr,
    w_trace w' = (w_trace w ++ tr)%list /\
    (List.length (copies tr) <= 1)%nat /\
    (List.length (filter is_sancov tr) <= 1)%nat /\
    (List.length (filter crash_effect tr) <= 3)%nat.
Proof.
  intros H. pose proof (analyze_cases e status fuzzer w) as A. rewrite H in A.
  inversion A as [C| E | C E S | | sig S Ts I | sig S Ts I]; subst.
  - split; [now left|]. exists []. rewrite app_nil_r. cbn. repeat split; lia.
  - split; [now left|]. eexists. split; [reflexivity|]. cbn. repeat split; lia.
  - split; [now left|]. eexists. split; [reflexivity|]. cbn. repeat split; lia.
  - split; [now left|]. eexists. split; [reflexivity|]. cbn. repeat split; lia.
  - split; [now right|]. eexists. split; [reflexivity|].
    rewrite copies_crash_events. unfold crash_events. cbv zeta.
    destruct (env_copyFile e _ _); cbn; repeat split; lia.
Qed.

(** X10.  One call of [arch_reapChild], whatever [wait4] returns and
    whether it has returned or is still waiting, counts at most one
    crash: the engine context is the one of the start or the one with
    both counters incremented once, the configuration is untouched, and
    the effects hold at most one copy and at most one call of the
    coverage hook. *)
Theorem reap_counts_at_most_once
    (e : env) (fuzzer : fuzzer_t) (wait4 : list (Z * Z)) (w w' : world) :
  (exists rest, arch_reapChild e wait4 fuzzer w = Reaped w' rest) \/
  arch_reapChild e wait4 fuzzer w = Waiting w' ->
  (w_hfuzz w' = w_hfuzz w \/ w_hfuzz w' = counted (w_hfuzz w)) /\
  config (w_hfuzz w') = config (w_hfuzz w) /\
  exists tr,
    w_trace w' = (w_trace w ++ tr)%list /\
    (List.length (copies tr) <= 1)%nat /\
    (List.length (filter is_sancov tr) <= 1)%nat.
Proof.
  intros [[rest H] | H].
  - destruct (reap_reaped_inv _ _ _ _ _ _ H) as (pre & status & _ & _ & _ & A).
    destruct (analyze_effects_bound _ _ _ _ _ _ A) as [Hh (tr & Tr & Cp & Sc & _)].
    cbn [w_hfuzz w_trace log_to] in Hh, Tr.
    split; [exact Hh|]. split; [destruct Hh as [-> | ->]; reflexivity|].
    eexists. split; [rewrite Tr, <- app_assoc; reflexivity|].
    destruct (came_back_quiet fuzzer pre) as (Q1 & Q2 & _).
    rewrite !copies_app, !filter_app, Q1, Q2. cbn. split; assumption.
  - pose proof (reap_waiting_inv _ _ _ _ _ H) as T.
    rewrite <- (app_nil_r wait4) in H at 1.
    rewrite (reap_transient _ _ _ _ T) in H. injection H as <-.
    split; [now left|]. split; [reflexivity|].
    exists (came_back fuzzer wait4). split; [reflexivity|].
    destruct (came_back_quiet fuzzer wait4) as (Q1 & Q2 & _).
    rewrite Q1, Q2. cbn. split; lia.
Qed.

Lemma reap_counts_at_most_once_witness :
  (w_hfuzz ex_reaped = w_hfuzz ex_world \/
   w_hfuzz ex_reaped = counted (w_hfuzz ex_world)) /\
  config (w_hfuzz ex_reaped) = config (w_hfuzz ex_world) /\
  exists tr,
    w_trace ex_reaped = (w_trace ex_world ++ tr)%list /\
    (List.length (copies tr) <= 1)%nat /\
    (List.length (filter is_sancov tr) <= 1)%nat.
Proof.
  apply (reap_counts_at_most_once ex_env ex_fuzzer
           [(4242, 0xffff); (4242, 11); (4242, 0)] ex_world ex_reaped).
  left. exists [(4242, 0)]. vm_compute. reflexivity.
Defined.

(** X11.  A status of a stopped child ends the wait as well: it is none
    of continued, exited and killed, so [arch_reapChild] returns on it,
    with its debug line and the error line that asks for a report as
    only effects and the engine context untouched, although the child
    has not terminated. *)
Theorem reap_returns_on_stopped_child
    (e : env) (fuzzer : fuzzer_t) (status : Z) (rest : list (Z * Z)) (w : world) :
  WIFSTOPPED status = true ->
  status <> W_CONTINUED ->
  arch_reapChild e ((pid fuzzer, status) :: rest) fuzzer w =
    Reaped (log_to w [ Ev_log LOG_D (Msg_came_back (pid fuzzer) status);
                       Ev_log LOG_E (Msg_report_bug (pid fuzzer) status) ]) rest.
Proof.
  intros St Nc. unfold WIFSTOPPED in St. apply Z.eqb_eq in St.
  assert (WTERMSIG status = 0x7f) as T.
  { unfold WTERMSIG. change 0x7f with (Z.land 0xff 0x7f) at 1.
    now rewrite Z.land_assoc, St. }
  assert (WIFCONTINUED status = false) as C by now apply Z.eqb_neq.
  assert (WIFEXITED status = false) as E by (unfold WIFEXITED; now rewrite T).
  assert (WIFSIGNALED status = false) as S.
  { destruct (WIFSIGNALED status) eqn:S; [|reflexivity].
    apply WIFSIGNALED_spec in S. lia. }
  rewrite reap_child_step, (analyze_unexpected _ _ _ _ C E S).
  now rewrite log_to_log_to.
Qed.

(** [0x137f] is the status of a child stopped by SIGSTOP. *)
Lemma reap_returns_on_stopped_child_witness :
  arch_reapChild ex_env ((4242, 0x137f) :: [(4242, 0)]) ex_fuzzer ex_world =
    Reaped (log_to ex_world [ Ev_log LOG_D (Msg_came_back 4242 0x137f);
                              Ev_log LOG_E (Msg_report_bug 4242 0x137f) ])
      [(4242, 0)].
Proof.
  apply (reap_returns_on_stopped_child ex_env ex_fuzzer 0x137f [(4242, 0)] ex_world).
  - reflexivity.
  - discriminate.
Defined.

(** ** The argument vector as a whole *)

Lemma ptrs_length (ph : string) (h : honggfuzz_t) (l : list string) :
  forall x, List.length (ptrs ph h x l) = List.length l.
Proof. induction l as [|a l IH]; intros x; cbn; [reflexivity | now rewrite IH]. Qed.

Lemma launch_argv_length_eq (ph : string) (h : honggfuzz_t) (input : string) :
  List.length (launch_argv ph h input) = Nat.min ARGS_MAX (List.length (cmdline h)).
Proof.
  unfold launch_argv. rewrite launch_loop_eq. cbn [args argData].
  rewrite app_nil_l, length_map, Nat.sub_0_r, ptrs_length. apply length_firstn.
Qed.

(** X12.  Whatever the template and whether or not the input is given
    on the standard input, the vector has one element for each argument
    of the template up to [ARGS_MAX]: arguments from the 513th on are not
    passed, and the NULL that ends the vector is stored at an index of
    at most [ARGS_MAX], inside the [ARGS_MAX + 2] elements of [args]. *)
Theorem launch_argv_at_most_ARGS_MAX (ph : string) (h : honggfuzz_t) (input : string) :
  List.length (launch_argv ph h input) = Nat.min ARGS_MAX (List.length (cmdline h)) /\
  (List.length (launch_argv ph h input) <= ARGS_MAX)%nat /\
  (List.length (launch_argv ph h input) < ARGS_MAX + 2)%nat /\
  forall i, (ARGS_MAX <= i)%nat -> nth_error (launch_argv ph h input) i = None.
Proof.
  pose proof (launch_argv_length_eq ph h input) as L.
  split; [exact L|]. split; [lia|]. split; [lia|].
  intros i Hi. apply nth_error_None. lia.
Qed.

(** X13.  [execvp] is given no program to run, a NULL in [args[0]],
    exactly when the template is empty; otherwise the vector has a first
    element. *)
Theorem launch_program_null_iff_empty (ph : string) (h : honggfuzz_t) (input : string) :
  hd_error (launch_argv ph h input) = None <-> cmdline h = [].
Proof.
  pose proof (launch_argv_length_eq ph h input) as L.
  destruct (launch_argv ph h input) as [|a l], (cmdline h) as [|c t];
    cbn in *; split; intros H; try reflexivity; discriminate.
Qed.

(** X14.  Without [fuzzStdin], when at most one of the visited arguments
    holds the token without being equal to it, the vector is the
    template, up to [ARGS_MAX], with each argument substituted on its
    own: the shared buffer does no harm then. *)
Theorem launch_argv_substitutes_each
    (ph : string) (h : honggfuzz_t) (input : string) :
  fuzzStdin h = false ->
  (forall i j a b offa offb,
     (i < ARGS_MAX)%nat -> (j < ARGS_MAX)%nat ->
     nth_error (cmdline h) i = Some a -> nth_error (cmdline h) j = Some b ->
     a <> ph -> b <> ph -> strstr a ph = Some offa -> strstr b ph = Some offb ->
     i = j) ->
  launch_argv ph h input = map (subst_arg ph input) (firstn ARGS_MAX (cmdline h)).
Proof.
  intros F U. apply nth_error_ext. intros n.
  rewrite launch_argv_nth, nth_error_map. fold (visited h).
  destruct (nth_error (visited h) n) as [a|] eqn:V; [|reflexivity].
  cbn [option_map]. f_equal. unfold subst_arg, streq.
  destruct (String.eqb a ph) eqn:E.
  - apply String.eqb_eq in E. now rewrite (kind_exact ph h a F E).
  - apply String.eqb_neq in E. destruct (strstr a ph) as [off|] eqn:S.
    + rewrite (kind_sub ph h a off F E S).
      apply (fold_data_last ph h input _ _ n a off V (kind_sub ph h a off F E S)).
      intros k c Lk Hk. unfold is_sub.
      destruct (kind ph h c) as [|offc|] eqn:K; try reflexivity. exfalso.
      apply visited_nth in V. apply visited_nth in Hk.
      destruct V as [Ln Hn], Hk as [Lk' Hk].
      unfold kind in K. rewrite F in K. cbn [negb andb] in K. unfold streq in K.
      destruct (String.eqb c ph) eqn:Ec; [discriminate K|].
      apply String.eqb_neq in Ec.
      destruct (strstr c ph) as [oc|] eqn:Sc; [|discriminate K].
      pose proof (U n k a c off oc Ln Lk' Hn Hk E Ec S Sc). lia.
    + now rewrite (kind_plain ph h a F S).
Qed.

Lemma launch_argv_substitutes_each_witness :
  launch_argv spec_token ex_hfuzz "/tmp/f1"
    = map (subst_arg spec_token "/tmp/f1") (firstn ARGS_MAX (cmdline ex_hfuzz)).
Proof.
  apply (launch_argv_substitutes_each spec_token ex_hfuzz "/tmp/f1").
  - reflexivity.
  - intros i j a b offa offb _ _ Hi Hj Na Nb Sa Sb.
    destruct i as [|[|[|i]]], j as [|[|[|j]]]; cbn in Hi, Hj;
      try (destruct i; discriminate Hi); try (destruct j; discriminate Hj);
      injection Hi as <-; injection Hj as <-;
      try reflexivity; discriminate.
Defined.

Lemma prefix_app (p s : string) : String.prefix p (p ++ s) = true.
Proof.
  induction p as [|c p IH]; cbn; [now destruct s|].
  destruct (ascii_dec c c); [exact IH | congruence].
Qed.

Lemma str_take_app (a x : string) : str_take (String.length a) (a ++ x) = a.
Proof. induction a as [|c a IH]; cbn; [now destruct x | now rewrite IH]. Qed.

Lemma str_drop_app (a x : string) : str_drop (String.length a) (a ++ x) = x.
Proof. induction a as [|c a IH]; cbn; [now destruct x | exact IH]. Qed.

(** [strstr] finds the needle where it first starts. *)
Lemma strstr_at (needle : string) (k : nat) :
  forall hay,
    (k <= String.length hay)%nat ->
    String.prefix needle (str_drop k hay) = true ->
    (forall j, (j < k)%nat -> String.prefix needle (str_drop j hay) = false) ->
    strstr hay needle = Some k.
Proof.
  induction k as [|k IH]; intros hay L P N.
  - destruct hay; cbn [str_drop] in P; cbn [strstr]; now rewrite P.
  - destruct hay as [|c hay]; [cbn in L; lia|].
    pose proof (N 0%nat ltac:(lia)) as N0. cbn [str_drop] in N0.
    cbn [strstr]. rewrite N0.
    rewrite (IH hay); [reflexivity | cbn in L; lia | exact P |].
    intros j Hj. apply (N (S j)). lia.
Qed.

(** X15.  What follows the token in an argument is not passed: without
    [fuzzStdin], a visited argument made of a text, the token where it
    first occurs, and a rest, followed by no other argument that holds
    the token inside, is passed as the text and the input path (their
    first [PATH_MAX - 1] bytes), without the rest. *)
Theorem launch_drops_what_follows_the_token
    (ph : string) (h : honggfuzz_t) (input : string)
    (i : nat) (pre post : string) :
  fuzzStdin h = false ->
  (i < ARGS_MAX)%nat ->
  nth_error (cmdline h) i = Some (pre ++ ph ++ post) ->
  pre ++ ph ++ post <> ph ->
  (forall j, (j < String.length pre)%nat ->
             String.prefix ph (str_drop j (pre ++ ph ++ post)) = false) ->
  (forall k c, (i < k < ARGS_MAX)%nat -> nth_error (cmdline h) k = Some c ->
               c = ph \/ strstr c ph = None) ->
  nth_error (launch_argv ph h input) i = Some (snprintf PATH_MAX (pre ++ input)).
Proof.
  intros F Li N Na First Last.
  assert (strstr (pre ++ ph ++ post) ph = Some (String.length pre)) as S.
  { apply strstr_at.
    - clear. induction pre; cbn; lia.
    - rewrite str_drop_app. apply prefix_app.
    - exact First. }
  assert (nth_error (visited h) i = Some (pre ++ ph ++ post)) as V
    by now apply visited_nth.
  rewrite launch_argv_nth, V. cbn [option_map].
  rewrite (kind_sub ph h _ _ F Na S). f_equal. unfold final_argData.
  rewrite (fold_data_last ph h input _ "" i _ _ V (kind_sub ph h _ _ F Na S)).
  - unfold splice. now rewrite str_take_app.
  - intros k c Lk Hk. apply visited_nth in Hk. destruct Hk as [Lk' Hk].
    apply (not_sub ph h c F). apply (Last k c); [lia | exact Hk].
Qed.

Lemma launch_drops_what_follows_the_token_witness :
  nth_error
    (launch_argv spec_token
       {| cmdline := ["target"; "--in=@@.txt"]; fuzzStdin := false;
          origFlipRate := rate_0_05; useVerifier := false;
          workDir := "/out"; fileExtn := "fuzz";
          crashesCnt := 0; uniqueCrashesCnt := 0 |} "/tmp/f1") 1
    = Some (snprintf PATH_MAX ("--in=" ++ "/tmp/f1")).
Proof.
  apply (launch_drops_what_follows_the_token spec_token _ "/tmp/f1" 1 "--in=" ".txt").
  - reflexivity.
  - unfold ARGS_MAX. lia.
  - reflexivity.
  - discriminate.
  - intros j Hj. cbn in Hj.
    destruct j as [|[|[|[|[|j]]]]]; try reflexivity. lia.
  - intros k c [L _] Hk. destruct k as [|[|k]]; try lia.
    destruct k; discriminate Hk.
Defined.
